(** * race.py: a binary search tree kept in nested Python lists

    A shallow embedding of the class [BinarySearchTree] of [src/race.py]
    and the properties its specification states about it.

    Python objects that serve as values and as sort keys are the elements
    of one totally ordered type [V] (Python is untyped: without a key
    function a value is its own key).  A node is the Python list
    [[left, right, value]] or [[left, right, value, sort_key]], or the
    empty list.  The methods are state transformers over the three
    attributes of the object, returning a value or raising. *)

From Equations Require Import Equations.
From mathcomp Require Import boot order.
From Stdlib Require Import ZArith String Ascii DecimalString Lia.

Set Implicit Arguments.
Unset Strict Implicit.
Unset Printing Implicit Defensive.

Import Order.TTheory.
Local Open Scope order_scope.

(** ** Nodes *)

(** [_LEFT = 0] and [_RIGHT = 1]: the two child indices of a node. *)
Inductive side : Type := _LEFT | _RIGHT.

(** The list of a node.  [Empty] is [[]]; [Node l r v None] is the
    three-element list [[l, r, v]], [Node l r v (Some k)] the four-element
    list [[l, r, v, k]]. *)
Inductive node (T : Type) : Type :=
| Empty
| Node (left right : node T) (value : T) (key : option T).

Arguments Empty {T}.

(** The two exceptions the class raises: [IndexError] (an empty tree, or
    an index into an empty list) and [KeyError] (no such key). *)
Inductive exn : Type := IndexError | KeyError.

Inductive result (A : Type) : Type :=
| Ok (a : A)
| Raise (e : exn).

Arguments Raise {A} e.

(** A reference to a node list inside the tree: the child indices that
    lead to it from the root.  Ownership is tree shaped, so a path names
    one list object. *)
Definition ref : Type := seq side.

Section Nodes.
Variable T : Type.
Implicit Types (n : node T) (p : ref).

(** [node[side]] for a non-empty node ([[]] has no items; the callers
    test the node first). *)
Definition child n (s : side) : node T :=
  match n with
  | Node l r _ _ => if s is _LEFT then l else r
  | Empty => Empty
  end.

(** Truth value of a list: non-empty. *)
Definition truthy n : bool := if n is Empty then false else true.

(** [node[_SORT_KEY]], that is [node[-1]]: the last item, which is the
    value itself in the three-element encoding. *)
Definition last_item (v : T) (k : option T) : T :=
  if k is Some k' then k' else v.

Definition getitem_VALUE n : result T :=
  if n is Node _ _ v _ then Ok v else Raise IndexError.

Definition getitem_SORT_KEY n : result T :=
  if n is Node _ _ v k then Ok (last_item v k) else Raise IndexError.

(** [len(node)] *)
Definition len_node n : nat :=
  match n with
  | Empty => 0
  | Node _ _ _ None => 3
  | Node _ _ _ (Some _) => 4
  end.

(** The list object a reference denotes. *)
Fixpoint deref n p : node T :=
  match p with
  | [::] => n
  | s :: p' => deref (child n s) p'
  end.

(** In-place replacement of the contents of the list a reference
    denotes ([node[:] = ...]): every holder of the list sees the new
    contents, so the tree is rebuilt along the path. *)
Fixpoint assign (f : node T -> node T) n p {struct n} : node T :=
  match p with
  | [::] => f n
  | s :: p' =>
      match n with
      | Empty => Empty
      | Node l r v k =>
          match s with
          | _LEFT => Node (assign f l p') r v k
          | _RIGHT => Node l (assign f r p') v k
          end
      end
  end.

(** Number of non-empty nodes, and the (value, key) pairs, the values and
    the keys they hold, from left to right. *)
Fixpoint size_tree n : nat :=
  if n is Node l r _ _ then (size_tree l + size_tree r).+1 else 0.

Fixpoint tree_items n : seq (T * T) :=
  if n is Node l r v k then
    tree_items l ++ (v, last_item v k) :: tree_items r
  else [::].

Definition tree_values n : seq T := [seq it.1 | it <- tree_items n].

Definition tree_keys n : seq T := [seq it.2 | it <- tree_items n].

(** Number of nodes on the longest way down from a node. *)
Fixpoint height n : nat :=
  if n is Node l r _ _ then (maxn (height l) (height r)).+1 else 0.

(** A tree that only ever goes right: no node has a left child. *)
Fixpoint right_spine n : bool :=
  if n is Node l r _ _ then ~~ truthy l && right_spine r else true.

(** The traversal that visits the [pre] subtree, the node, then the
    [post] subtree. *)
Fixpoint traverse (pre post : side) n : seq T :=
  if n is Node l r v _ then
    (if pre is _LEFT then traverse pre post l else traverse pre post r) ++
    v :: (if post is _LEFT then traverse pre post l
          else traverse pre post r)
  else [::].

(** What is still to come from a node waiting on the stack of [_iter]:
    its value, then its [post] subtree. *)
Definition resume (pre post : side) n : seq T :=
  if n is Node _ _ v _ then v :: traverse pre post (child n post) else [::].

End Nodes.

(** ** Strings, as [_pprint] and [pprint] use them *)

Local Infix "+++" := String.append (right associativity, at level 60).

(** [len(s)] of a string and of a list *)
Definition len_str (s : string) : Z := Z.of_nat (String.length s).

Definition len_seq A (s : seq A) : Z := Z.of_nat (size s).

(** [c * n] for a one-character string: empty when [n] is not positive. *)
Definition str_mul (c : ascii) (n : Z) : string :=
  ssrnat.iter (Z.to_nat n) (String c) EmptyString.

(** [s.rjust(width, fill)] and [s.ljust(width)] *)
Definition rjust (s : string) (width : Z) (fill : ascii) : string :=
  str_mul fill (width - len_str s) +++ s.

Definition ljust (s : string) (width : Z) : string :=
  s +++ str_mul " "%char (width - len_str s).

(** [sep.join(lines)] *)
Fixpoint join (sep : string) (lines : seq string) : string :=
  match lines with
  | [::] => EmptyString
  | [:: line] => line
  | line :: lines' => line +++ sep +++ join sep lines'
  end.

(** [enumerate(lines)] *)
Definition enumerate (lines : seq string) : seq (Z * string) :=
  zip [seq Z.of_nat i | i <- iota 0 (size lines)] lines.

(** [max(zs)] of a non-empty sequence. *)
Definition max_of (zs : seq Z) : Z :=
  if zs is z :: zs' then foldl Z.max z zs' else 0%Z.

Definition newline : string := String (ascii_of_nat 10) EmptyString.

(** ** The object and its methods *)

Section Model.
Variables (d : Order.disp_t) (V : orderType d).

(** Whether two equal objects are one and the same object is not a
    function of their value; [same_object] stands for the interpreter's
    answer.  Python's [a is b] then is [is_ a b]: identical objects are in
    particular equal. *)
Variable same_object : V -> V -> bool.

(** [repr], as used by the ['%r'] conversions of [_pprint]. *)
Variable repr : V -> string.

Definition is_ (a b : V) : bool := (a == b) && same_object a b.

(** The attributes [_root], [_sort_key] and [_len] of the object. *)
Record BinarySearchTree : Type := mkBST {
  _root : node V;
  _sort_key : option (V -> V);
  _len : Z
}.

(** A method body: it reads and updates the attributes of [self] and
    returns or raises. *)
Definition M (A : Type) : Type :=
  BinarySearchTree -> result A * BinarySearchTree.

Definition ret A (a : A) : M A := fun self => (Ok a, self).

Definition raise A (e : exn) : M A := fun self => (Raise e, self).

Arguments raise {A} e.

Definition lift A (r : result A) : M A := fun self => (r, self).

Definition bind A B (c : M A) (k : A -> M B) : M B :=
  fun self =>
    match c self with
    | (Ok a, self') => k a self'
    | (Raise e, self') => (Raise e, self')
    end.

Notation "x <- c ;; k" := (bind c (fun x => k))
  (at level 61, c at next level, right associativity).
Notation "c ;;; k" := (bind c (fun _ => k))
  (at level 61, right associativity).

Definition get_root : M (node V) := fun self => (Ok (_root self), self).

Definition set_root (n : node V) : M unit :=
  fun self => (Ok tt, mkBST n (_sort_key self) (_len self)).

Definition get_sort_key : M (option (V -> V)) :=
  fun self => (Ok (_sort_key self), self).

Definition get_len : M Z := fun self => (Ok (_len self), self).

Definition set_len (z : Z) : M unit :=
  fun self => (Ok tt, mkBST (_root self) (_sort_key self) z).

(** [node[_VALUE]] through a reference. *)
Definition value_of (p : ref) : M V :=
  root <- get_root ;; lift (getitem_VALUE (deref root p)).

(** [__init__(self, sort_key=None)] *)
Definition __init__ (sort_key : option (V -> V)) : BinarySearchTree :=
  mkBST Empty sort_key 0.

(** The descent of [insert]: [while node: ...] ends at an empty list; the
    result refers to that list. *)
Fixpoint insert_walk (sort_key : V) (n : node V) : ref :=
  if n is Node l r v k then
    if sort_key < last_item v k then _LEFT :: insert_walk sort_key l
    else _RIGHT :: insert_walk sort_key r
  else [::].

(** [insert(self, value)].  Without a key function [sort_key] is bound to
    the object [value] itself, so that [sort_key is value] holds. *)
Definition insert (value : V) : M unit :=
  key_fn <- get_sort_key ;;
  let sort_key := if key_fn is Some f then f value else value in
  let same := if key_fn is Some _ then is_ sort_key value else true in
  root <- get_root ;;
  let node := insert_walk sort_key root in
  let contents :=
    if same then Node Empty Empty value None
    else Node Empty Empty value (Some sort_key) in
  set_root (assign (fun _ => contents) root node) ;;;
  n <- get_len ;;
  set_len (n + 1)%Z.

(** The loop of [_extreme_node]: [while node[side]: node = node[side]]. *)
Fixpoint extreme_walk (s : side) (n : node V) : ref :=
  if n is Node l r _ _ then
    match s with
    | _LEFT => if truthy l then _LEFT :: extreme_walk s l else [::]
    | _RIGHT => if truthy r then _RIGHT :: extreme_walk s r else [::]
    end
  else [::].

(** [_extreme_node(self, side)] *)
Definition _extreme_node (s : side) : M ref :=
  root <- get_root ;;
  if ~~ truthy root then raise IndexError
  else ret (extreme_walk s root).

(** The loop of [_find]; [None] when it runs off the tree. *)
Fixpoint find_walk (sort_key : V) (n : node V) : option ref :=
  if n is Node l r v k then
    let node_key := last_item v k in
    if sort_key < node_key then omap (cons _LEFT) (find_walk sort_key l)
    else if sort_key > node_key then
      omap (cons _RIGHT) (find_walk sort_key r)
    else Some [::]
  else None.

(** [_find(self, sort_key)] *)
Definition _find (sort_key : V) : M ref :=
  root <- get_root ;;
  if find_walk sort_key root is Some p then ret p else raise KeyError.

(** [minimum], [maximum], [find] *)
Definition minimum : M V := node <- _extreme_node _LEFT ;; value_of node.

Definition maximum : M V := node <- _extreme_node _RIGHT ;; value_of node.

Definition find (sort_key : V) : M V :=
  node <- _find sort_key ;; value_of node.

(** Modelled from the spec: [collapse(n)] of section 4.4, which the
    absent [_pop_node] needs.  A node with no children becomes the empty
    node; a node with one child [c] has its value, key and children
    overwritten with those of [c]. *)
Definition collapse (n c : node V) : node V :=
  if c is Node cl cr cv ck then Node cl cr cv ck else Empty.

(** Modelled from the spec: [remove(n)] of section 4.4, the new contents
    of the slot of [n].  With two children the successor [s] is the
    leftmost node of the right subtree; its value and key are copied into
    [n] and [remove] is applied to [s] in place. *)
Fixpoint remove (n : node V) : node V :=
  match n with
  | Empty => Empty
  | Node l r v k =>
      if ~~ truthy l then collapse n r
      else if ~~ truthy r then collapse n l
      else
        let s := extreme_walk _LEFT r in
        match deref r s with
        | Node _ _ sv sk => Node l (assign remove r s) sv sk
        | Empty => n
        end
  end.

(** Modelled from the spec: [_pop_node(self, node)], which [race.py]
    calls but does not define ("Add pop-node here").  Section 4.4: capture
    the value of the located node, remove the node structurally, decrement
    the count, return the value. *)
Definition _pop_node (node : ref) : M V :=
  value <- value_of node ;;
  root <- get_root ;;
  set_root (assign remove root node) ;;;
  n <- get_len ;;
  set_len (n - 1)%Z ;;;
  ret value.

(** [pop_min], [pop_max], [pop]: the argument is evaluated first. *)
Definition pop_min : M V := node <- _extreme_node _LEFT ;; _pop_node node.

Definition pop_max : M V := node <- _extreme_node _RIGHT ;; _pop_node node.

Definition pop (sort_key : V) : M V :=
  node <- _find sort_key ;; _pop_node node.

(** The work left to the loop of [_iter]: a node still to be descended
    costs one push and one pop besides its two subtrees; a node on the
    stack costs its pop and its [post] subtree. *)
Fixpoint steps (pre post : side) (n : node V) : nat :=
  if n is Node l r _ _ then
    ((if pre is _LEFT then steps pre post l else steps pre post r) +
     (if post is _LEFT then steps pre post l else steps pre post r)).+2
  else 0.

Definition pending (pre post : side) (n : node V) : nat :=
  (steps pre post (child n post)).+1.

Definition iter_measure (pre post : side) (stack : seq (node V))
    (n : node V) : nat :=
  sumn [seq pending pre post m | m <- stack] + steps pre post n.

(** [yield v] in front of what the rest of the loop generates. *)
Definition yield (v : V) (rest : result (seq V)) : result (seq V) :=
  if rest is Ok vs then Ok (v :: vs) else rest.

(** The loop of [_iter]: [while stack or node: ...].  The top of the
    stack is the head of the list.  The result is what a consumer of the
    whole generator collects. *)
Equations? _iter_loop (pre post : side) (stack : seq (node V))
    (n : node V) : result (seq V)
    by wf (iter_measure pre post stack n) lt :=
  _iter_loop pre post stack (Node l r v k) :=
    _iter_loop pre post (Node l r v k :: stack) (child (Node l r v k) pre);
  _iter_loop pre post (Node l r v k :: stack) Empty :=
    yield v (_iter_loop pre post stack (child (Node l r v k) post));
  _iter_loop pre post (Empty :: stack) Empty := Raise IndexError;
  _iter_loop pre post [::] Empty := Ok [::].
Proof.
- clear _iter_loop; apply/ssrnat.ltP.
  by rewrite /iter_measure /= /pending /= addn0 addSn ltnS addnC.
- clear _iter_loop; apply/ssrnat.ltP; rewrite /iter_measure /= /pending /=.
  move: (sumn _) => w; apply/ssrnat.ltP.
  by case: pre; case: post; rewrite /= -!plusE; lia.
Qed.

(** [_iter(self, pre, post)] *)
Definition _iter (pre post : side) : M (seq V) :=
  root <- get_root ;; lift (_iter_loop pre post [::] root).

(** [values(self, reverse=False)] *)
Definition values (reverse : bool) : M (seq V) :=
  if reverse then _iter _RIGHT _LEFT else _iter _LEFT _RIGHT.

(** [__len__(self)] *)
Definition __len__ : M Z := get_len.

(** [_pprint(self, node, max_depth, show_key, spacer=2)] *)
Fixpoint _pprint (n : node V) (max_depth : Z) (show_key : bool)
    (spacer : Z) : seq string * string * seq string :=
  if (max_depth =? 0)%Z then ([::], "- ..."%string, [::])
  else if n is Node l r v k then
    let mid_line := "-" +++ repr v in
    let mid_line :=
      if 3 < len_node n then
        mid_line +++ " (key=" +++ repr (last_item v k) +++ ")"
      else mid_line in
    let top_lines :=
      if truthy l then
        let: (t, m, b) := _pprint l (max_depth - 1)%Z show_key spacer in
        let indent := str_mul " " (len_seq b + spacer)%Z in
        [seq indent +++ " " +++ line | line <- t] ++
        [:: indent +++ "/" +++ m] ++
        [seq str_mul " " (len_seq b - il.1 + spacer - 1)%Z +++ "/" +++
             str_mul " " (il.1 + 1)%Z +++ il.2
        | il <- enumerate b]
      else [::] in
    let bot_lines :=
      if truthy r then
        let: (t, m, b) := _pprint r (max_depth - 1)%Z show_key spacer in
        let indent := str_mul " " (len_seq t + spacer)%Z in
        [seq str_mul " " (il.1 + spacer)%Z +++ "\" +++
             str_mul " " (len_seq t - il.1)%Z +++ il.2
        | il <- enumerate t] ++
        [:: indent +++ "\" +++ m] ++
        [seq indent +++ " " +++ line | line <- b]
      else [::] in
    (top_lines, mid_line, bot_lines)
  else ([::], "- EMPTY"%string, [::]).

(** [pprint(self, max_depth=10, frame=True, show_key=True)] *)
Definition pprint (max_depth : Z) (frame show_key : bool) : M string :=
  root <- get_root ;;
  let: (t, m, b) := _pprint root max_depth show_key 2 in
  let lines := t ++ [:: m] ++ b in
  if frame then
    let width := Z.max 40 (max_of [seq len_str line | line <- lines]) in
    let s := "+-" +++ rjust "MIN" width "-" +++ "-+" +++ newline in
    let s :=
      s +++ join EmptyString
              [seq "| " +++ ljust line width +++ " |" +++ newline
              | line <- lines] in
    let s := s +++ "+-" +++ rjust "MAX" width "-" +++ "-+" +++ newline in
    ret s
  else ret (join newline lines).

(** [__nonzero__(self)] *)
Definition __nonzero__ : M bool := n <- get_len ;; ret (0 <? n)%Z.

(** [__repr__(self)]: [for v in self] runs [__iter__], which is [values]
    with [reverse] at its default. *)
Definition __repr__ : M string :=
  vs <- values false ;;
  ret ("<BST: (" +++ join ", " [seq repr v | v <- vs] +++ ")>").

(** [__str__(self)]: [pprint] with its defaults. *)
Definition __str__ : M string := pprint 10 true true.

(** ** Invariants and the public interface *)

(** The ordering invariant: at every node the keys of the left subtree
    are strictly below the key of the node and the keys of the right
    subtree are not below it. *)
Fixpoint search_tree (n : node V) : bool :=
  if n is Node l r v k then
    [&& all (fun x => x < last_item v k) (tree_keys l),
        all (fun x => last_item v k <= x) (tree_keys r),
        search_tree l & search_tree r]
  else true.

(** The sort key of a value under the key function of the tree. *)
Definition key_of (key_fn : option (V -> V)) (value : V) : V :=
  if key_fn is Some f then f value else value.

(** Every node holds the key of its value. *)
Definition keyed (key_fn : option (V -> V)) (n : node V) : bool :=
  all (fun it => it.2 == key_of key_fn it.1) (tree_items n).

(** [_len] counts the nodes. *)
Definition count_ok (self : BinarySearchTree) : Prop :=
  _len self = Z.of_nat (size_tree (_root self)).

Definition well_formed (self : BinarySearchTree) : Prop :=
  [/\ search_tree (_root self), keyed (_sort_key self) (_root self)
    & count_ok self].

(** The public operations on an existing object, and the object they
    leave behind, whether they return or raise. *)
Inductive call : Type :=
| Insert (value : V)
| Minimum
| Maximum
| Find (sort_key : V)
| Pop (sort_key : V)
| PopMin
| PopMax
| Values (reverse : bool)
| Len
| Pprint (max_depth : Z) (frame show_key : bool).

Definition perform (c : call) (self : BinarySearchTree) : BinarySearchTree :=
  match c with
  | Insert value => (insert value self).2
  | Minimum => (minimum self).2
  | Maximum => (maximum self).2
  | Find sort_key => (find sort_key self).2
  | Pop sort_key => (pop sort_key self).2
  | PopMin => (pop_min self).2
  | PopMax => (pop_max self).2
  | Values reverse => (values reverse self).2
  | Len => (__len__ self).2
  | Pprint max_depth frame show_key =>
      (pprint max_depth frame show_key self).2
  end.

(** The objects a program can hold: a constructed one, and what any
    public operation leaves of one. *)
Inductive reachable : BinarySearchTree -> Prop :=
| reach_init key_fn : reachable (__init__ key_fn)
| reach_call c self : reachable self -> reachable (perform c self).

(** A sequence of calls to [insert], stopping at the first that raises. *)
Fixpoint insert_all (vs : seq V) : M unit :=
  if vs is v :: vs' then insert v ;;; insert_all vs' else ret tt.

(** The key annotation of a line of [_pprint], and the line of a node as
    the specification words it: annotated when [show_key] is enabled and
    the key differs from the value. *)
Definition annotation (k : V) : string := " (key=" +++ repr k +++ ")".

Definition spec_mid_line (show_key : bool) (v : V) (k : option V) : string :=
  if show_key && (last_item v k != v) then
    ("-" +++ repr v) +++ annotation (last_item v k)
  else "-" +++ repr v.

(** The text [_pprint] writes for each node, in left-to-right order of
    the nodes: ['-'], the [repr] of the value and, for a four-item list,
    the key annotation. *)
Fixpoint node_texts (n : node V) : seq string :=
  if n is Node l r v k then
    node_texts l ++
    (if k is Some k' then ("-" +++ repr v) +++ annotation k'
     else "-" +++ repr v) :: node_texts r
  else [::].

(** A line of the rendering that ends with a given text. *)
Definition ends_with (text line : string) : Prop :=
  exists prefix, line = prefix +++ text.

End Model.

(** ** physics.py: [partition]

    The function scans a Python list with two integer indices.  An index
    may be negative, counting from the end of the list, and an index
    outside [[-len, len)] raises [IndexError]. *)

Section Partition.
Variables (d : Order.disp_t) (V : orderType d).
Implicit Types (lst : seq V) (i bottom top : Z).

(** The place in the list that an index denotes, if any. *)
Definition position lst i : option nat :=
  let n := Z.of_nat (size lst) in
  if (0 <=? i)%Z && (i <? n)%Z then Some (Z.to_nat i)
  else if (- n <=? i)%Z && (i <? 0)%Z then Some (Z.to_nat (n + i))
  else None.

(** [list[i]] *)
Definition getitem lst i : result V :=
  if position lst i is Some j then
    if drop j lst is x :: _ then Ok x else Raise IndexError
  else Raise IndexError.

(** The list with the item at place [j] replaced. *)
Fixpoint replace (j : nat) (x : V) lst : seq V :=
  match lst, j with
  | [::], _ => [::]
  | _ :: s, 0 => x :: s
  | y :: s, j'.+1 => y :: replace j' x s
  end.

(** [list[i] = x], the list after the assignment. *)
Definition setitem lst i (x : V) : result (seq V) :=
  if position lst i is Some j then Ok (replace j x lst)
  else Raise IndexError.

(** The two statements after the loops: [list[top] = pivot; return top]. *)
Definition partition_finish (pivot : V) lst top : result (seq V * Z) :=
  if setitem lst top pivot is Ok lst' then Ok (lst', top)
  else Raise IndexError.

(** Which of the two inner loops is running. *)
Inductive phase : Type := ScanBottom | ScanTop.

Definition inspect (A : Type) (a : A) : {b : A | a = b} :=
  exist _ a erefl.

(** The loops, one iteration of an inner loop at a time.  In the first
    inner loop [bottom] goes down until it meets [top] ([done], which ends
    all loops) or finds an item above the pivot, which it copies to
    [top] before the second loop starts; the second loop does the same
    with [top], and when it breaks without [done] the outer loop runs the
    first one again. *)
Equations? partition_loop (pivot : V) (ph : phase) lst bottom top :
    result (seq V * Z)
    by wf (Z.to_nat (bottom + Z.of_nat (size lst)) +
           Z.to_nat (top + Z.of_nat (size lst)))%coq_nat lt :=
  partition_loop pivot ScanBottom lst bottom top
    with inspect (bottom - 1 =? top)%Z := {
    | exist _ true _ := partition_finish pivot lst top
    | exist _ false _ with inspect (getitem lst (bottom - 1)) := {
      | exist _ (Raise e) _ := Raise e
      | exist _ (Ok x) Hx with inspect (x > pivot) := {
        | exist _ false _ :=
            partition_loop pivot ScanBottom lst (bottom - 1) top
        | exist _ true _ with inspect (setitem lst top x) := {
          | exist _ (Raise e) _ := Raise e
          | exist _ (Ok lst') Hs :=
              partition_loop pivot ScanTop lst' (bottom - 1) top } } } };
  partition_loop pivot ScanTop lst bottom top
    with inspect (top - 1 =? bottom)%Z := {
    | exist _ true _ := partition_finish pivot lst (top - 1)
    | exist _ false _ with inspect (getitem lst (top - 1)) := {
      | exist _ (Raise e) _ := Raise e
      | exist _ (Ok x) Hx with inspect (x < pivot) := {
        | exist _ false _ :=
            partition_loop pivot ScanTop lst bottom (top - 1)
        | exist _ true _ with inspect (setitem lst bottom x) := {
          | exist _ (Raise e) _ := Raise e
          | exist _ (Ok lst') Hs :=
              partition_loop pivot ScanBottom lst' bottom (top - 1) } } } }.
Proof.
all: clear partition_loop.
all: have Hsize (j : nat) (y : V) (s : seq V) :
       size (replace j y s) = size s
       by elim: s j => [|a s IH] [|j] //=; rewrite IH.
all: try (move: Hs; rewrite /setitem; case: (position _ _) => // j [<-];
          rewrite Hsize).
all: move: Hx; rewrite /getitem /position.
all: case: ifP => [/andP[/Z.leb_le H1 /Z.ltb_lt H2] _|_]; first lia.
all: case: ifP => [/andP[/Z.leb_le H1 /Z.ltb_lt H2] _|//]; lia.
Qed.

(** [partition(list, start, end)]: the list after the call and the index
    returned, or the exception raised. *)
Definition partition lst (start end_ : Z) : result (seq V * Z) :=
  if getitem lst end_ is Ok pivot then
    partition_loop pivot ScanBottom lst (start - 1)%Z end_
  else Raise IndexError.

End Partition.

(** ** Concrete instances: natural numbers as values and keys *)

(** [repr] of a non-negative Python integer. *)
Definition repr_nat (n : nat) : string :=
  NilEmpty.string_of_uint (Nat.to_uint n).

(** Small integers are shared objects: equal ones are identical. *)
Definition shared (a b : nat) : bool := true.

(** Objects that are never shared, as with freshly built keys. *)
Definition fresh (a b : nat) : bool := false.

(** insert 5, 3, 8, 1, 4 into a tree without key function. *)
Definition tree_53814 : BinarySearchTree nat :=
  (insert_all shared [:: 5; 3; 8; 1; 4] (__init__ None)).2.

(** insert 5, and insert 5, 2, 8, under the key function [x + 100]. *)
Definition plus100 (x : nat) : nat := x + 100.

Definition tree_5_keyed : BinarySearchTree nat :=
  (insert_all shared [:: 5] (__init__ (Some plus100))).2.

Definition tree_keyed : BinarySearchTree nat :=
  (insert_all shared [:: 5; 2; 8] (__init__ (Some plus100))).2.

(** insert 1000 under a key function that returns an equal integer that
    is another object, as [lambda x: int(str(x))] does beyond the small
    integers the interpreter shares. *)
Definition copy_of (x : nat) : nat := x.

Definition tree_copy : BinarySearchTree nat :=
  (insert_all fresh [:: 1000] (__init__ (Some copy_of))).2.

(** ** Elementary facts about nodes *)

Section NodeFacts.
Variable T : Type.
Implicit Types (n : node T) (p : ref).

Lemma size_tree_items n : size (tree_items n) = size_tree n.
Proof.
by elim: n => //= l <- r <- v k; rewrite size_cat /= addnS.
Qed.

Lemma traverse_values n : traverse _LEFT _RIGHT n = tree_values n.
Proof.
by elim: n => //= l -> r -> v k; rewrite /tree_values map_cat.
Qed.

Lemma traverse_rev n :
  traverse _RIGHT _LEFT n = rev (traverse _LEFT _RIGHT n).
Proof.
by elim: n => //= l -> r -> v k; rewrite rev_cat rev_cons cat_rcons.
Qed.

End NodeFacts.

(** ** The loop of [_iter] *)

Section Traversal.
Variables (d : Order.disp_t) (V : orderType d).
Implicit Types (n : node V) (stack : seq (node V)) (self : BinarySearchTree V).

Lemma traverse_child pre post (l r : node V) v k :
  traverse pre post (Node l r v k) =
  traverse pre post (child (Node l r v k) pre) ++
  v :: traverse pre post (child (Node l r v k) post).
Proof. by case: pre; case: post. Qed.

(** The loop yields the traversal of the current node and then what the
    stacked nodes still owe, innermost first. *)
Lemma iter_loop_traverse pre post stack n :
  all (@truthy V) stack ->
  _iter_loop pre post stack n =
  Ok (traverse pre post n ++ flatten [seq resume pre post m | m <- stack]).
Proof.
funelim (_iter_loop pre post stack n) => //.
- by move=> /= Hs; rewrite H.
- move=> Hs; rewrite H //; congr Ok.
  by rewrite traverse_child -catA.
Qed.

Lemma _iter_traverse pre post self :
  _iter pre post self = (Ok (traverse pre post (_root self)), self).
Proof.
by rewrite /_iter /bind /= /lift iter_loop_traverse // cats0.
Qed.

Lemma values_forward self :
  values false self = (Ok (tree_values (_root self)), self).
Proof. by rewrite /values _iter_traverse traverse_values. Qed.

Lemma values_backward self :
  values true self = (Ok (rev (tree_values (_root self))), self).
Proof. by rewrite /values _iter_traverse traverse_rev traverse_values. Qed.

End Traversal.

(** ** References into a tree *)

Section References.
Variables (d : Order.disp_t) (V : orderType d).
Implicit Types (n l r : node V) (p : ref) (k : V) (it : V * V).

Lemma perm_cons_middle (A : eqType) (x : A) (s1 s2 : seq A) :
  perm_eq (s1 ++ x :: s2) (x :: s1 ++ s2).
Proof. by rewrite -cat1s perm_catCA. Qed.

Lemma deref_Empty p : deref (@Empty V) p = Empty.
Proof. by elim: p => //= -[]. Qed.

Lemma deref_items n p l r v ko :
  deref n p = Node l r v ko -> (v, last_item v ko) \in tree_items n.
Proof.
elim: p n => [|s p IH] /= n.
  by move=> ->; rewrite /= mem_cat inE eqxx orbT.
case: n => [|nl nr nv nk]; first by rewrite deref_Empty.
by case: s => /= /IH Hin; rewrite mem_cat inE Hin ?orbT.
Qed.

(** Rewriting the list behind a reference takes one item out of the
    whole tree when it takes one out of that list. *)
Lemma assign_items f n p it :
  perm_eq (tree_items (deref n p)) (it :: tree_items (f (deref n p))) ->
  perm_eq (tree_items n) (it :: tree_items (assign f n p)).
Proof.
elim: p n => [|s p IH] [|l r v ko] //=.
  by rewrite !deref_Empty => /perm_size.
case: s => /IH Hp.
- by rewrite -cat_cons perm_cat2r.
- apply: (perm_trans (perm_cons_middle _ _ _)); rewrite perm_sym.
  apply: (perm_trans (perm_cons_middle _ (it :: _) _)); rewrite /= perm_cons.
  by rewrite perm_sym -(permPr (perm_cons_middle _ _ _)) perm_cat2l.
Qed.

End References.

(** ** The ordering invariant *)

Section Ordering.
Variables (d : Order.disp_t) (V : orderType d).
Implicit Types (n l r : node V) (p : ref) (k : V) (it : V * V).

Lemma sorted_around (s1 s2 : seq V) x :
  all (fun y => y <= x) s1 -> all (fun y => x <= y) s2 ->
  sorted <=%O s1 -> sorted <=%O s2 -> sorted <=%O (s1 ++ x :: s2).
Proof.
move=> H1 H2 S1 S2; have P2 : path <=%O x s2.
  by rewrite (path_sortedE le_trans) H2.
case: s1 H1 S1 => [|y s1] // H1 /= S1.
rewrite cat_path S1 /= P2 andbT.
exact: (allP H1 _ (mem_last _ _)).
Qed.

(** The keys of a search tree come in non-decreasing order. *)
Lemma search_tree_sorted n : search_tree n -> sorted <=%O (tree_keys n).
Proof.
elim: n => //= l IHl r IHr v ko /and4P[Hl Hr /IHl Sl /IHr Sr].
rewrite /tree_keys map_cat /=; apply: sorted_around => //.
by apply: sub_all Hl => y /ltW.
Qed.

Lemma keyed_keys key_fn n :
  keyed key_fn n -> [seq key_of key_fn v | v <- tree_values n] = tree_keys n.
Proof.
rewrite /keyed /tree_values /tree_keys -map_comp => /allP H.
by apply/eq_in_map => it /H /eqP.
Qed.

Lemma search_tree_assign f n p it :
  perm_eq (tree_items (deref n p)) (it :: tree_items (f (deref n p))) ->
  (search_tree (deref n p) -> search_tree (f (deref n p))) ->
  search_tree n -> search_tree (assign f n p).
Proof.
elim: p n => [|s p IH] n; first by case: n => [|l r v ko] /= _ H /H.
case: n => [|l r v ko] //=.
case: s => Hp Hf /and4P[Hl Hr Sl Sr]; apply/and4P; split=> //.
- have /(perm_map snd) /perm_all E := assign_items Hp.
  by move: Hl; rewrite /tree_keys E => /= /andP[].
- exact: IH.
- have /(perm_map snd) /perm_all E := assign_items Hp.
  by move: Hr; rewrite /tree_keys E => /= /andP[].
- exact: IH.
Qed.

End Ordering.

(** ** The descents *)

Section Descents.
Variables (d : Order.disp_t) (V : orderType d).
Implicit Types (n l r : node V) (p : ref) (k : V) (it : V * V).

(** The leftmost node has no left child and holds the first item. *)
Lemma extreme_left n :
  truthy n ->
  exists r v ko s,
    deref n (extreme_walk _LEFT n) = Node Empty r v ko /\
    tree_items n = (v, last_item v ko) :: s.
Proof.
elim: n => //= l IHl r _ v ko _.
case Tl: (truthy l) => /=; last first.
  by case: l Tl {IHl} => // _; exists r, v, ko, (tree_items r).
have [r' [v' [ko' [s [-> E]]]]] := IHl Tl.
by exists r', v', ko', (s ++ (v, last_item v ko) :: tree_items r); rewrite E.
Qed.

(** The rightmost node has no right child and holds the last item. *)
Lemma extreme_right n :
  truthy n ->
  exists l v ko s,
    deref n (extreme_walk _RIGHT n) = Node l Empty v ko /\
    tree_items n = rcons s (v, last_item v ko).
Proof.
elim: n => //= l _ r IHr v ko _.
case Tr: (truthy r) => /=; last first.
  case: r Tr {IHr} => // _.
  by exists l, v, ko, (tree_items l); rewrite cats1.
have [l' [v' [ko' [s [-> E]]]]] := IHr Tr.
exists l', v', ko', (tree_items l ++ (v, last_item v ko) :: s).
by rewrite E rcons_cat.
Qed.

(** A successful key descent ends at a node that holds the key. *)
Lemma find_walk_some k n p :
  find_walk k n = Some p ->
  exists l r v ko, deref n p = Node l r v ko /\ last_item v ko = k.
Proof.
elim: n p => //= l IHl r IHr v ko p.
case: ltgtP => [Hlt|Hgt|->].
- by case E: (find_walk k l) => [q|] //= [<-] /=; apply: IHl.
- by case E: (find_walk k r) => [q|] //= [<-] /=; apply: IHr.
- by case=> <-; exists l, r, v, ko.
Qed.

Lemma find_walk_absent k n :
  k \notin tree_keys n -> find_walk k n = None.
Proof.
move=> Hk; case E: (find_walk k n) => [p|] //.
have [l [r [v [ko [/deref_items Hin Ek]]]]] := find_walk_some E.
by move: Hk; rewrite -Ek; move/(map_f snd): Hin => /= ->.
Qed.

(** In a search tree the key descent finds every key present. *)
Lemma find_walk_present k n :
  search_tree n -> k \in tree_keys n -> find_walk k n.
Proof.
elim: n => //= l IHl r IHr v ko /and4P[Hl Hr Sl Sr].
rewrite /tree_keys map_cat mem_cat inE /= -!/(tree_keys _).
case: ltgtP => //= [Hlt|Hgt] Hin.
- have {Hin} Hin : k \in tree_keys l.
    case/orP: Hin => // /(allP Hr).
    by rewrite leNgt Hlt.
  by case: (find_walk k l) (IHl Sl Hin).
- have {Hin} Hin : k \in tree_keys r.
    case/orP: Hin => // /(allP Hl) /ltW.
    by rewrite leNgt Hgt.
  by case: (find_walk k r) (IHr Sr Hin).
Qed.

End Descents.

(** ** Insertion and removal on nodes *)

Section Updates.
Variables (d : Order.disp_t) (V : orderType d).
Implicit Types (n l r : node V) (p : ref) (k : V) (it : V * V).

(** Filling the empty list that the descent of [insert] reaches adds the
    items of the new contents, here a single one. *)
Lemma insert_items k n new it :
  tree_items new = [:: it] ->
  perm_eq (tree_items (assign (fun _ => new) n (insert_walk k n)))
          (it :: tree_items n).
Proof.
move=> E; elim: n => [|l IHl r IHr v ko] /=; first by rewrite E.
case: ifP => _ /=; first by rewrite -cat_cons perm_cat2r.
rewrite perm_sym; apply: (perm_trans (perm_cons_middle _ (it :: _) _)).
rewrite perm_sym /=; apply: (perm_trans (perm_cons_middle _ _ _)).
by rewrite perm_cons -(permPr (perm_cons_middle _ _ _)) perm_cat2l.
Qed.

Lemma insert_search_tree k n new v :
  tree_items new = [:: (v, k)] -> search_tree new ->
  search_tree n ->
  search_tree (assign (fun _ => new) n (insert_walk k n)).
Proof.
move=> E Sn; elim: n => [|l IHl r IHr w ko] //= /and4P[Hl Hr Sl Sr].
have P m := perm_all _ (perm_map snd (insert_items k m E)).
case: ifP => Hk /=; apply/and4P.
  by split; rewrite /tree_keys ?P /= ?Hk ?IHl ?IHr.
split; rewrite /tree_keys ?P /= ?Hk ?IHl ?IHr //.
by rewrite leNgt Hk.
Qed.

Lemma collapse_eq n c : collapse n c = c.
Proof. by case: c. Qed.

Lemma removeE l r v ko :
  remove (Node l r v ko) =
  if ~~ truthy l then r
  else if ~~ truthy r then l
  else if deref r (extreme_walk _LEFT r) is Node _ _ sv sk then
    Node l (assign (@remove _ V) r (extreme_walk _LEFT r)) sv sk
  else Node l r v ko.
Proof. by rewrite /= !collapse_eq. Qed.

(** What [remove] does to the leftmost node of a right subtree. *)
Lemma remove_leftmost r :
  truthy r ->
  exists sr sv sk,
    [/\ deref r (extreme_walk _LEFT r) = Node Empty sr sv sk,
        exists s, tree_items r = (sv, last_item sv sk) :: s,
        perm_eq (tree_items r)
          ((sv, last_item sv sk) ::
           tree_items (assign (@remove _ V) r (extreme_walk _LEFT r))) &
        search_tree r ->
        search_tree (assign (@remove _ V) r (extreme_walk _LEFT r))].
Proof.
move=> /extreme_left[sr [sv [sk [s [E Es]]]]].
exists sr, sv, sk; split=> //; first by exists s.
- by apply: assign_items; rewrite E removeE.
- apply: (@search_tree_assign _ _ _ _ _ (sv, last_item sv sk)).
    by rewrite E removeE.
  by rewrite E removeE /= => /andP[].
Qed.

(** [remove] takes the item of the node itself out of its subtree. *)
Lemma remove_items l r v ko :
  perm_eq (tree_items (Node l r v ko))
          ((v, last_item v ko) :: tree_items (remove (Node l r v ko))).
Proof.
rewrite removeE; case Tl: (truthy l) => /=; last by case: l Tl.
case Tr: (truthy r) => /=.
  have [sr [sv [sk [-> _ Hp _]]]] := remove_leftmost Tr.
  apply: (perm_trans (perm_cons_middle _ _ _)); rewrite perm_cons /=.
  by rewrite perm_cat2l.
by case: r Tr => // _; rewrite /= -cat1s perm_catC.
Qed.

(** [remove] keeps a search tree a search tree. *)
Lemma remove_search_tree n : search_tree n -> search_tree (remove n).
Proof.
case: n => // l r v ko; rewrite removeE /= => /and4P[Hl Hr Sl Sr].
case Tl: (truthy l) => //=; case Tr: (truthy r) => //=.
have [sr [sv [sk [-> [s Es] Hp Hs]]]] := remove_leftmost Tr.
have Hmin : all (fun x => last_item sv sk <= x) (tree_keys r).
  have := search_tree_sorted Sr; rewrite /tree_keys Es /=.
  by rewrite (path_sortedE le_trans) lexx => /andP[].
have Hle : last_item v ko <= last_item sv sk.
  by move: Hr; rewrite /tree_keys Es /= => /andP[].
apply/and4P; split=> //; last exact: Hs.
- by apply: sub_all Hl => x Hx; apply: lt_le_trans Hle.
- by move: Hmin; rewrite (perm_all _ (perm_map snd Hp)) => /= /andP[].
Qed.

End Updates.

(** ** The methods *)

Section Methods.
Variables (d : Order.disp_t) (V : orderType d).
Variable same_object : V -> V -> bool.
Variable repr : V -> string.
Implicit Types (n l r : node V) (p : ref) (k value : V).
Implicit Types (self : BinarySearchTree V) (key_fn : option (V -> V)).

Local Notation insert := (insert same_object).
Local Notation insert_all := (insert_all same_object).
Local Notation pprint := (pprint repr).
Local Notation perform := (perform same_object repr).
Local Notation reachable := (reachable same_object repr).

(** *** What each method returns and leaves behind *)

Lemma _extreme_nodeE s self :
  _extreme_node s self =
  if truthy (_root self) then (Ok (extreme_walk s (_root self)), self)
  else (Raise IndexError, self).
Proof. by rewrite /_extreme_node /bind /=; case: (truthy _). Qed.

Lemma minimumE self :
  minimum self =
  (if tree_values (_root self) is v :: _ then Ok v else Raise IndexError,
   self).
Proof.
rewrite /minimum /bind _extreme_nodeE.
case T: (truthy _); last by case: (_root self) T.
have [r [v [ko [s [E Es]]]]] := extreme_left T.
by rewrite /value_of /bind /= /lift E /tree_values Es.
Qed.

Lemma maximumE self :
  maximum self =
  (if tree_values (_root self) is v :: s then Ok (last v s)
   else Raise IndexError, self).
Proof.
rewrite /maximum /bind _extreme_nodeE.
case T: (truthy _); last by case: (_root self) T.
have [r [v [ko [s [E Es]]]]] := extreme_right T.
rewrite /value_of /bind /= /lift E /tree_values Es map_rcons /=.
by case: s {Es} => //= x s; rewrite last_rcons.
Qed.

Lemma _findE k self :
  _find k self =
  if find_walk k (_root self) is Some p then (Ok p, self)
  else (Raise KeyError, self).
Proof. by rewrite /_find /bind /=; case: (find_walk _ _). Qed.

Lemma findE k self :
  find k self =
  (if find_walk k (_root self) is Some p then
     getitem_VALUE (deref (_root self) p)
   else Raise KeyError, self).
Proof.
by rewrite /find /bind _findE; case: (find_walk _ _).
Qed.

Lemma pprint_state max_depth frame show_key self :
  (pprint max_depth frame show_key self).2 = self.
Proof.
rewrite /pprint /bind /=.
by case: (_pprint _ _ _ _ _) => [[t m] b]; case: frame.
Qed.

(** [insert] writes one node holding the value and its key. *)
Lemma insertE value self :
  exists new,
    [/\ tree_items new = [:: (value, key_of (_sort_key self) value)],
        search_tree new &
        insert value self =
        (Ok tt, mkBST (assign (fun _ => new) (_root self)
                         (insert_walk (key_of (_sort_key self) value)
                                      (_root self)))
                      (_sort_key self) (_len self + 1)%Z)].
Proof.
rewrite /insert /bind /=.
case: (_sort_key self) => [f|] /=; last first.
  by exists (Node Empty Empty value None).
case E: (is_ _ _ _).
  exists (Node Empty Empty value None); split=> //=.
  by case/andP: E => /eqP ->.
by exists (Node Empty Empty value (Some (f value))).
Qed.

(** [_pop_node] on a reference to a node. *)
Lemma _pop_nodeE p self l r v ko :
  deref (_root self) p = Node l r v ko ->
  let self' :=
    mkBST (assign (@remove _ V) (_root self) p) (_sort_key self)
          (_len self - 1)%Z in
  [/\ _pop_node p self = (Ok v, self'),
      perm_eq (tree_items (_root self))
              ((v, last_item v ko) :: tree_items (_root self')) &
      search_tree (_root self) -> search_tree (_root self')].
Proof.
move=> E /=; split.
- by rewrite /_pop_node /bind /value_of /bind /= /lift E.
- by apply: assign_items; rewrite E; apply: remove_items.
- apply: (@search_tree_assign _ _ _ _ _ (v, last_item v ko)).
    by rewrite E; apply: remove_items.
  exact: remove_search_tree.
Qed.

(** *** Well-formedness is kept *)

Lemma well_formed_init key_fn : well_formed (__init__ key_fn).
Proof. by []. Qed.

Lemma well_formed_insert value self :
  well_formed self -> well_formed (insert value self).2.
Proof.
case=> St Hk Hc; have [new [E Sn ->]] := insertE value self.
have Hp := insert_items (key_of (_sort_key self) value) (_root self) E.
split=> /=.
- exact: insert_search_tree E Sn St.
- by rewrite /keyed (perm_all _ Hp) /= eqxx.
- rewrite /count_ok /= -size_tree_items (perm_size Hp) /= size_tree_items.
  by rewrite Hc Zpos_P_of_succ_nat Z.add_1_r.
Qed.

Lemma well_formed_pop_node p self l r v ko :
  deref (_root self) p = Node l r v ko ->
  well_formed self -> well_formed (_pop_node p self).2.
Proof.
move=> E [St Hk Hc]; have /= [-> Hp Hs] := _pop_nodeE E.
split=> /=; first exact: Hs.
- by move: Hk; rewrite /keyed (perm_all _ Hp) /= => /andP[].
- move: Hc; rewrite /count_ok /= -!size_tree_items (perm_size Hp) /= => ->.
  by rewrite Zpos_P_of_succ_nat Z.sub_1_r Z.pred_succ.
Qed.

Lemma well_formed_pop_extreme s self :
  well_formed self ->
  well_formed (bind (_extreme_node s) (@_pop_node _ V) self).2.
Proof.
move=> Hw; rewrite /bind _extreme_nodeE; case T: (truthy _) => //.
case: s.
- have [r [v [ko [_ [E _]]]]] := extreme_left T.
  exact: well_formed_pop_node E Hw.
- have [l [v [ko [_ [E _]]]]] := extreme_right T.
  exact: well_formed_pop_node E Hw.
Qed.

Lemma well_formed_pop k self :
  well_formed self -> well_formed (pop k self).2.
Proof.
move=> Hw; rewrite /pop /bind _findE.
case E: (find_walk _ _) => [p|] //.
have [l [r [v [ko [Ed _]]]]] := find_walk_some E.
exact: well_formed_pop_node Ed Hw.
Qed.

Lemma well_formed_perform c self :
  well_formed self -> well_formed (perform c self).
Proof.
case: c => [value|||k|k|||reverse||max_depth frame show_key] /= Hw.
- exact: well_formed_insert.
- by rewrite minimumE.
- by rewrite maximumE.
- by rewrite findE.
- exact: well_formed_pop.
- exact: well_formed_pop_extreme.
- exact: well_formed_pop_extreme.
- by case: reverse; rewrite ?values_forward ?values_backward.
- by [].
- by rewrite pprint_state.
Qed.

(** Every object a program can hold is well formed. *)
Lemma reachable_well_formed self : reachable self -> well_formed self.
Proof.
elim=> [key_fn|c t _ IH]; first exact: well_formed_init.
exact: well_formed_perform.
Qed.

(** A run of inserts succeeds, keeps the object well formed, adds its
    length to the count and keeps every item that was there. *)
Lemma insert_all_well_formed vs self :
  well_formed self ->
  exists self',
    [/\ insert_all vs self = (Ok tt, self'), well_formed self',
        _sort_key self' = _sort_key self,
        _len self' = (_len self + Z.of_nat (size vs))%Z &
        forall it, it \in tree_items (_root self) ->
                   it \in tree_items (_root self')].
Proof.
elim: vs self => [|v vs IH] self Hw /=.
  by exists self; split=> //; rewrite Z.add_0_r.
have := well_formed_insert v Hw; have [new [E Sn Ei]] := insertE v self.
rewrite /bind Ei /= => /IH[self' [-> Hw' /= Ek El Hin]].
exists self'; split=> //.
- by rewrite El Zpos_P_of_succ_nat; lia.
- move=> it Hit; apply: Hin.
  by rewrite (perm_mem (insert_items _ _ E)) inE Hit orbT.
Qed.

(** *** The properties of the specification *)

(** C1.  In a well-formed tree, [pop] of a key that is present returns a
    value with that key, takes exactly one (value, key) item with that key
    out of the tree, makes [__len__] one less, and leaves a well-formed
    tree, so that the ordering invariant still holds; [pop] of a key that
    is absent raises [KeyError] and leaves the object as it was.  The
    removal itself is [_pop_node] as the specification describes it. *)
Theorem pop_removes_one k self :
  well_formed self ->
  if k \in tree_keys (_root self) then
    exists v self',
      [/\ pop k self = (Ok v, self'),
          key_of (_sort_key self) v = k,
          perm_eq (tree_items (_root self))
                  ((v, k) :: tree_items (_root self')),
          __len__ self' = (Ok (_len self - 1)%Z, self') &
          search_tree (_root self') /\ well_formed self']
  else pop k self = (Raise KeyError, self).
Proof.
move=> Hw; case: ifPn => Hk; last first.
  by rewrite /pop /bind _findE find_walk_absent.
case: (Hw) => St Hkey _; have := find_walk_present St Hk.
case E: (find_walk _ _) => [p|] // _.
have [l [r [v [ko [Ed Ek]]]]] := find_walk_some E.
have Hw' := well_formed_pop_node Ed Hw.
have /= [Ep Hp _] := _pop_nodeE Ed; move: Hw'; rewrite Ep /= => Hw'.
exists v; eexists; split; first by rewrite /pop /bind _findE E Ep.
- by move/allP: Hkey => /(_ _ (deref_items Ed)) /= /eqP <-.
- by rewrite -Ek.
- by [].
- by split=> //; case: Hw'.
Qed.

(** C2.  The ordering invariant holds of every object a program can hold,
    and so before and after every public operation on it: the left
    subtree of every node has strictly smaller keys, the right subtree
    keys that are not smaller. *)
Theorem search_tree_invariant self :
  reachable self ->
  search_tree (_root self) /\
  forall c, search_tree (_root (perform c self)).
Proof.
move=> /reachable_well_formed Hw; split; first by case: Hw.
by move=> c; case: (well_formed_perform c Hw).
Qed.

(** C3.  [insert] never raises, and after the [n] inserts of any
    sequence of values into a new tree [__len__] returns [n]. *)
Theorem insert_all_len :
  (forall value self, (insert value self).1 = Ok tt) /\
  (forall key_fn vs,
     exists self,
       insert_all vs (__init__ key_fn) = (Ok tt, self) /\
       __len__ self = (Ok (Z.of_nat (size vs)), self)).
Proof.
split=> [value self|key_fn vs].
  by have [new [_ _ ->]] := insertE value self.
have [self [E _ _ El _]] :=
  insert_all_well_formed vs (well_formed_init key_fn).
by exists self; split=> //; rewrite /__len__ /get_len El.
Qed.

(** C4.  In a well-formed tree the values generated by [values(False)]
    have non-decreasing keys, those generated by [values(True)] have
    non-increasing keys, and each generates [__len__] values. *)
Theorem values_sorted self :
  well_formed self ->
  exists up down,
    [/\ values false self = (Ok up, self),
        values true self = (Ok down, self),
        sorted <=%O [seq key_of (_sort_key self) v | v <- up],
        sorted >=%O [seq key_of (_sort_key self) v | v <- down] &
        __len__ self = (Ok (Z.of_nat (size up)), self) /\
        size down = size up].
Proof.
case=> St Hk Hc.
exists (tree_values (_root self)), (rev (tree_values (_root self))).
have Hs := search_tree_sorted St.
split; rewrite ?values_forward ?values_backward ?map_rev ?keyed_keys //.
- by rewrite rev_sorted.
- by rewrite size_rev /__len__ /get_len Hc size_map size_tree_items.
Qed.

(** C5.  On a non-empty tree [minimum] returns the first and [maximum]
    the last of the values that [values(False)] generates. *)
Theorem extremes_of_values self :
  truthy (_root self) ->
  exists x vs,
    [/\ values false self = (Ok (x :: vs), self),
        minimum self = (Ok x, self) &
        maximum self = (Ok (last x vs), self)].
Proof.
move=> T; rewrite values_forward minimumE maximumE.
case E: (tree_values _) => [|x vs]; last by exists x, vs.
move: E; rewrite /tree_values; case: (_root self) T => //= l r v ko _.
by case: (tree_items l).
Qed.

(** C6.  In a well-formed tree [find] of a key that is present returns a
    value with that key (and [find] of an absent key raises [KeyError]);
    and a value that was inserted, whatever was inserted after it, has its
    key present and is so found. *)
Theorem find_inserted self k :
  well_formed self ->
  (if k \in tree_keys (_root self) then
     exists v, find k self = (Ok v, self) /\
               key_of (_sort_key self) v = k
   else find k self = (Raise KeyError, self)) /\
  (forall value vs,
     exists self',
       [/\ insert_all (value :: vs) self = (Ok tt, self'),
           key_of (_sort_key self) value \in tree_keys (_root self') &
           exists v, find (key_of (_sort_key self) value) self' =
                     (Ok v, self') /\
                     key_of (_sort_key self) v =
                     key_of (_sort_key self) value]).
Proof.
have Hfind self0 (x : V) : well_formed self0 -> x \in tree_keys (_root self0) ->
    exists v, find x self0 = (Ok v, self0) /\ key_of (_sort_key self0) v = x.
  case=> St Hkey _ Hk; have := find_walk_present St Hk; rewrite findE.
  case E: (find_walk _ _) => [p|] // _.
  have [l [r [v [ko [Ed Ek]]]]] := find_walk_some E.
  exists v; rewrite Ed; split=> //.
  by move/allP: Hkey => /(_ _ (deref_items Ed)) /= /eqP <-.
move=> Hw; split=> [|value vs].
  case: ifPn => Hk; first exact: Hfind.
  by rewrite findE find_walk_absent.
have [new [E Sn Ei]] := insertE value self.
have Hw1 := well_formed_insert value Hw.
have [self' [Ea Hw' Ek _ Hin]] := insert_all_well_formed vs Hw1.
exists self'; rewrite /= /bind Ei /=.
move: Ea Ek Hin; rewrite Ei /= => Ea Ek Hin.
have Hk : key_of (_sort_key self) value \in tree_keys (_root self').
  apply/mapP; exists (value, key_of (_sort_key self) value) => //.
  by apply: Hin; rewrite (perm_mem (insert_items _ _ E)) inE eqxx.
by split=> //; rewrite -Ek; apply: Hfind => //; rewrite Ek.
Qed.

(** C7.  On a tree whose count is right and is zero, [minimum],
    [maximum], [pop_min] and [pop_max] raise [IndexError] and [find]
    raises [KeyError] for every key; the object is left as it was. *)
Theorem empty_tree_raises self :
  count_ok self -> __len__ self = (Ok 0%Z, self) ->
  [/\ minimum self = (Raise IndexError, self),
      maximum self = (Raise IndexError, self),
      pop_min self = (Raise IndexError, self),
      pop_max self = (Raise IndexError, self) &
      forall k, find k self = (Raise KeyError, self)].
Proof.
rewrite /count_ok /__len__ /get_len => -> [].
case E: (_root self) => [|l r v ko] // _.
rewrite minimumE maximumE /pop_min /pop_max /bind !_extreme_nodeE E /=.
by split=> // k; rewrite findE E.
Qed.


(** C9.  The values that [values(True)] generates are those of
    [values(False)] in reverse, equal keys included. *)
Theorem values_reverse self :
  exists vs,
    values false self = (Ok vs, self) /\
    values true self = (Ok (rev vs), self).
Proof.
by exists (tree_values (_root self)); rewrite values_forward values_backward.
Qed.

(** C10.  [find], [minimum], [maximum], [values], [__len__] and [pprint]
    leave the object as it was, root and count, whether they return or
    raise. *)
Theorem read_only_frame self k reverse max_depth frame show_key :
  [/\ (find k self).2 = self,
      (minimum self).2 = self,
      (maximum self).2 = self,
      (values reverse self).2 = self &
      (__len__ self).2 = self /\
      (pprint max_depth frame show_key self).2 = self].
Proof.
rewrite findE minimumE maximumE pprint_state; split=> //.
by case: reverse; rewrite ?values_forward ?values_backward.
Qed.

End Methods.

(** ** The properties at concrete trees *)

Lemma pop_removes_one_witness :
  well_formed tree_53814 /\
  (exists v self',
     [/\ pop 3 tree_53814 = (Ok v, self'),
         key_of (_sort_key tree_53814) v = 3,
         perm_eq (tree_items (_root tree_53814))
                 ((v, 3) :: tree_items (_root self')),
         __len__ self' = (Ok (_len tree_53814 - 1)%Z, self') &
         search_tree (_root self') /\ well_formed self']) /\
  pop 7 tree_53814 = (Raise KeyError, tree_53814).
Proof.
have Hw : well_formed tree_53814 by split; vm_compute.
split; first exact: Hw.
split; first exact: (pop_removes_one 3 Hw).
exact: (pop_removes_one 7 Hw).
Defined.

Lemma search_tree_invariant_witness :
  reachable shared repr_nat
    (perform shared repr_nat (Insert 5) (__init__ None)) /\
  search_tree (_root (perform shared repr_nat (Insert 5) (__init__ None))) /\
  forall c,
    search_tree
      (_root (perform shared repr_nat c
                (perform shared repr_nat (Insert 5) (__init__ None)))).
Proof.
have Hr : reachable shared repr_nat
            (perform shared repr_nat (Insert 5) (__init__ None)).
  exact: reach_call (reach_init _ _ _).
split; first exact: Hr.
exact: (search_tree_invariant Hr).
Defined.

Lemma values_sorted_witness :
  well_formed tree_53814 /\
  exists up down,
    [/\ values false tree_53814 = (Ok up, tree_53814),
        values true tree_53814 = (Ok down, tree_53814),
        sorted <=%O [seq key_of (_sort_key tree_53814) v | v <- up],
        sorted >=%O [seq key_of (_sort_key tree_53814) v | v <- down] &
        __len__ tree_53814 = (Ok (Z.of_nat (size up)), tree_53814) /\
        size down = size up].
Proof.
have Hw : well_formed tree_53814 by split; vm_compute.
split; first exact: Hw.
exact: (values_sorted Hw).
Defined.

Lemma extremes_of_values_witness :
  truthy (_root tree_53814) /\
  exists x vs,
    [/\ values false tree_53814 = (Ok (x :: vs), tree_53814),
        minimum tree_53814 = (Ok x, tree_53814) &
        maximum tree_53814 = (Ok (last x vs), tree_53814)].
Proof.
have T : truthy (_root tree_53814) by vm_compute.
split; first exact: T.
exact: (extremes_of_values T).
Defined.

Lemma find_inserted_witness :
  well_formed tree_53814 /\
  (exists v, find 8 tree_53814 = (Ok v, tree_53814) /\
             key_of (_sort_key tree_53814) v = 8) /\
  (forall value vs,
     exists self',
       [/\ insert_all shared (value :: vs) tree_53814 = (Ok tt, self'),
           key_of (_sort_key tree_53814) value \in tree_keys (_root self') &
           exists v, find (key_of (_sort_key tree_53814) value) self' =
                     (Ok v, self') /\
                     key_of (_sort_key tree_53814) v =
                     key_of (_sort_key tree_53814) value]).
Proof.
have Hw : well_formed tree_53814 by split; vm_compute.
split; first exact: Hw.
exact: (find_inserted shared 8 Hw).
Defined.

Lemma empty_tree_raises_witness :
  count_ok (__init__ None : BinarySearchTree nat) /\
  __len__ (__init__ None : BinarySearchTree nat) = (Ok 0%Z, __init__ None) /\
  [/\ minimum (__init__ None : BinarySearchTree nat) =
        (Raise IndexError, __init__ None),
      maximum (__init__ None : BinarySearchTree nat) =
        (Raise IndexError, __init__ None),
      pop_min (__init__ None : BinarySearchTree nat) =
        (Raise IndexError, __init__ None),
      pop_max (__init__ None : BinarySearchTree nat) =
        (Raise IndexError, __init__ None) &
      forall k, find k (__init__ None : BinarySearchTree nat) =
                (Raise KeyError, __init__ None)].
Proof.
have Hc : count_ok (__init__ None : BinarySearchTree nat) by [].
have Hl : __len__ (__init__ None : BinarySearchTree nat) =
          (Ok 0%Z, __init__ None) by [].
split; first exact: Hc.
split; first exact: Hl.
exact: (empty_tree_raises Hc Hl).
Defined.


(** The scenarios of the specification.  Inserting 5, 3, 8, 1, 4 gives
    the values 1, 3, 4, 5, 8; [pop_min] returns 1 and leaves four; [find
    8] returns 8; [pop 3] returns 3, after which 3 is not found. *)
Example scenario_53814 :
  [/\ (values false tree_53814).1 = Ok [:: 1; 3; 4; 5; 8],
      ((pop_min tree_53814).1, (__len__ (pop_min tree_53814).2).1) =
      (Ok 1, Ok 4%Z),
      (find 8 tree_53814).1 = Ok 8,
      (pop 3 tree_53814).1 = Ok 3 &
      (find 3 (pop 3 tree_53814).2).1 = Raise KeyError /\
      (values false (pop 3 (pop_min tree_53814).2).2).1 =
      Ok [:: 4; 5; 8]].
Proof. by split; vm_compute. Qed.

(** Removing a node with two children: after inserting 5, 2, 8, 1, 3, 7,
    9, [pop 8] puts the successor 9 in the place of 8. *)
Example scenario_two_children :
  let self := (insert_all shared [:: 5; 2; 8; 1; 3; 7; 9] (__init__ None)).2 in
  (pop 8 self).1 = Ok 8 /\
  (values false (pop 8 self).2).1 = Ok [:: 1; 2; 3; 5; 7; 9] /\
  deref (_root (pop 8 self).2) [:: _RIGHT] =
  Node (Node Empty Empty 7 None) Empty 9 None.
Proof. by split; vm_compute. Qed.


(** ** Where insertion puts a value, and what a key descent finds *)

Section Positions.
Variables (d : Order.disp_t) (V : orderType d).
Implicit Types (n l r : node V) (p : ref) (k : V) (it : V * V).

Lemma filter_none (A : Type) (a : pred A) (s : seq A) :
  all (fun x => ~~ a x) s -> filter a s = [::].
Proof. by elim: s => //= x s IH /andP[/negbTE -> /IH]. Qed.

Lemma filter_within (A : Type) (a b : pred A) (s : seq A) :
  (forall x, a x -> b x) -> filter a (filter b s) = filter a s.
Proof.
move=> H; elim: s => //= x s IH; case Hb: (b x) => /=; rewrite IH //.
by case Ha: (a x) => //; rewrite (H _ Ha) in Hb.
Qed.

Lemma filter_without (A : Type) (a b : pred A) (s : seq A) :
  (forall x, b x -> ~~ a x) -> filter a (filter b s) = [::].
Proof.
move=> H; elim: s => //= x s IH; case Hb: (b x) => //=.
by rewrite (negbTE (H _ Hb)).
Qed.

Lemma all_keys (a : pred V) n :
  all a (tree_keys n) = all (fun it => a it.2) (tree_items n).
Proof. by rewrite /tree_keys all_map. Qed.

(** The descent of [insert] ends right after the items whose key is not
    above the new key. *)
Lemma insert_position k n new it :
  tree_items new = [:: it] -> search_tree n ->
  tree_items (assign (fun _ => new) n (insert_walk k n)) =
  [seq x <- tree_items n | x.2 <= k] ++
  it :: [seq x <- tree_items n | k < x.2].
Proof.
move=> E; elim: n => [|l IHl r IHr w ko] /=; first by rewrite E.
rewrite !all_keys => /and4P[Hl Hr Sl Sr]; rewrite !filter_cat /=.
case: ifP => Hk /=.
- rewrite IHl // leNgt Hk /= -catA /=; congr (_ ++ _ :: _ ++ _).
    rewrite (@filter_none _ _ (tree_items r)) ?cats0 //.
    by apply: sub_all Hr => x Hx; rewrite -ltNge (lt_le_trans Hk).
  congr (_ :: _); apply/esym/all_filterP.
  by apply: sub_all Hr => x; apply: lt_le_trans.
- have Hle : last_item w ko <= k by rewrite leNgt Hk.
  rewrite IHr // Hle /= -!catA /=.
  have -> : [seq x <- tree_items l | x.2 <= k] = tree_items l.
    apply/all_filterP; apply: sub_all Hl => x /ltW Hx.
    exact: le_trans Hx Hle.
  rewrite (@filter_none _ _ (tree_items l)) //.
  by apply: sub_all Hl => x Hx; rewrite -leNgt (le_trans (ltW Hx)).
Qed.

(** Among the items of one key, the new one comes last. *)
Lemma insert_stable k k' n new it :
  tree_items new = [:: it] -> it.2 = k -> search_tree n ->
  [seq x <- tree_items (assign (fun _ => new) n (insert_walk k n))
  | x.2 == k'] =
  [seq x <- tree_items n | x.2 == k'] ++ [seq x <- [:: it] | x.2 == k'].
Proof.
move=> E Ek Sn; rewrite (insert_position k E Sn) filter_cat /= Ek.
case: (ltgtP k' k) => Hc.
- rewrite cats0 filter_within ?filter_without ?cats0 //= => x.
    by move=> /eqP ->; rewrite ltW.
  by move=> Hx; rewrite neq_lt (lt_trans Hc Hx) orbT.
- rewrite cats0 filter_without /= ?filter_within //= => x.
    by move=> Hx; rewrite neq_lt (le_lt_trans Hx Hc).
  by move=> /eqP ->.
- rewrite Hc filter_within ?filter_without //= => x.
    by move=> /eqP ->.
  by rewrite lt_neqAle eq_sym => /andP[].
Qed.

(** In a search tree the key descent ends at the first item of that key
    in left-to-right order, and fails when there is none. *)
Lemma find_walk_first k n :
  search_tree n ->
  match find_walk k n with
  | Some p =>
      exists l r v ko,
        deref n p = Node l r v ko /\
        exists s, [seq x <- tree_items n | x.2 == k] =
                  (v, last_item v ko) :: s
  | None => [seq x <- tree_items n | x.2 == k] = [::]
  end.
Proof.
elim: n => //= l IHl r IHr w ko.
rewrite !all_keys => /and4P[Hl Hr /IHl {}IHl /IHr {}IHr].
rewrite filter_cat /=; case: ltgtP => Hc.
- have Hr0 : [seq x <- tree_items r | x.2 == k] = [::].
    apply: filter_none; apply: sub_all Hr => x Hx.
    by rewrite neq_lt orbC (lt_le_trans Hc).
  rewrite Hr0; case: (find_walk k l) IHl => [p|] /=; last by move=> ->.
  move=> [a [b [v [kv [-> [s ->]]]]]].
  by exists a, b, v, kv; split=> //; exists s; rewrite cats0.
- have Hl0 : [seq x <- tree_items l | x.2 == k] = [::].
    apply: filter_none; apply: sub_all Hl => x Hx.
    by rewrite neq_lt (lt_trans Hx).
  by rewrite Hl0; case: (find_walk k r) IHr.
- have Hl0 : [seq x <- tree_items l | x.2 == k] = [::].
    apply: filter_none; apply: sub_all Hl => x.
    by rewrite Hc lt_neqAle => /andP[].
  rewrite Hl0; exists l, r, w, ko; split=> //.
  by exists [seq x <- tree_items r | x.2 == k].
Qed.

End Positions.

(** ** Further properties of the methods *)

Section MoreMethods.
Variables (d : Order.disp_t) (V : orderType d).
Variable same_object : V -> V -> bool.
Variable repr : V -> string.
Implicit Types (n l r : node V) (p : ref) (k value : V).
Implicit Types (self : BinarySearchTree V) (key_fn : option (V -> V)).

Local Notation insert := (insert same_object).
Local Notation insert_all := (insert_all same_object).
Local Notation pprint := (pprint repr).

Lemma keyed_filter key_fn n (a : pred V) :
  keyed key_fn n ->
  [seq v <- tree_values n | a (key_of key_fn v)] =
  [seq it.1 | it <- [seq it <- tree_items n | a it.2]].
Proof.
move=> /allP H; rewrite /tree_values filter_map; congr map.
by apply: eq_in_filter => it /H /eqP /= ->.
Qed.

Lemma path_le_last (a : V) (s : seq V) :
  path <=%O a s -> all (fun y => y <= last a s) (a :: s).
Proof.
elim: s a => [|b s IH] a /=; first by rewrite lexx.
case/andP=> Hab /IH /= /andP[Hb ->].
by rewrite Hb (le_trans Hab Hb).
Qed.

Lemma insert_sort_key value self :
  _sort_key (insert value self).2 = _sort_key self.
Proof. by have [new [_ _ ->]] := insertE same_object value self. Qed.

Lemma insert_root_items value self :
  search_tree (_root self) ->
  tree_items (_root (insert value self).2) =
  [seq x <- tree_items (_root self)
  | x.2 <= key_of (_sort_key self) value] ++
  (value, key_of (_sort_key self) value) ::
  [seq x <- tree_items (_root self)
  | key_of (_sort_key self) value < x.2].
Proof.
move=> St; have [new [E _ ->]] := insertE same_object value self.
exact: insert_position.
Qed.

Lemma insert_root_stable k value self :
  search_tree (_root self) ->
  [seq x <- tree_items (_root (insert value self).2) | x.2 == k] =
  [seq x <- tree_items (_root self) | x.2 == k] ++
  [seq x <- [:: (value, key_of (_sort_key self) value)] | x.2 == k].
Proof.
move=> St; have [new [E _ ->]] := insertE same_object value self.
exact: insert_stable.
Qed.

(** X1.  [insert] puts the value right after the values whose key is not
    greater than its own, and before those with a greater key. *)
Theorem insert_after_not_greater value self :
  well_formed self ->
  exists up,
    values false self = (Ok up, self) /\
    values false (insert value self).2 =
    (Ok ([seq v <- up
         | key_of (_sort_key self) v <= key_of (_sort_key self) value] ++
         value ::
         [seq v <- up
         | key_of (_sort_key self) value < key_of (_sort_key self) v]),
     (insert value self).2).
Proof.
case=> St Hk _; exists (tree_values (_root self)).
rewrite !values_forward; split=> //; congr (Ok _, _).
rewrite /tree_values insert_root_items // map_cat /=.
rewrite (@keyed_filter _ _ (fun x => x <= _)) //.
by rewrite (@keyed_filter _ _ (fun x => _ < x)).
Qed.

(** A run of inserts adds the values in their order, each key class kept
    in the order of insertion. *)
Lemma insert_all_values vs self :
  well_formed self ->
  exists self',
    [/\ insert_all vs self = (Ok tt, self'), well_formed self',
        _sort_key self' = _sort_key self,
        perm_eq (tree_values (_root self'))
                (tree_values (_root self) ++ vs) &
        forall k,
          [seq v <- tree_values (_root self')
          | key_of (_sort_key self) v == k] =
          [seq v <- tree_values (_root self)
          | key_of (_sort_key self) v == k] ++
          [seq v <- vs | key_of (_sort_key self) v == k]].
Proof.
elim: vs self => [|v vs IH] self Hw /=.
  by exists self; split=> // [|k]; rewrite cats0.
have Hw1 := well_formed_insert same_object v Hw.
have [new [E Sn Ei]] := insertE same_object v self.
move: (Hw1); rewrite /bind Ei /= => /IH[self' [-> Hw' /= Ek Hp Hf]].
move: Hw1; rewrite Ei /= => -[_ /= Hk1 _]; case: Hw => St Hk _.
have Hi := insert_items (key_of (_sort_key self) v) (_root self) E.
exists self'; split=> // [|k].
- apply: (perm_trans Hp); rewrite -cat1s catA perm_cat2r.
  by rewrite /tree_values (permPl (perm_map _ Hi)) /= -cat1s perm_catC.
- rewrite Hf !(@keyed_filter _ _ (fun x => x == k)) //.
  rewrite (insert_stable k E _ St) // map_cat /= -catA; congr (_ ++ _).
  by case: ifP.
Qed.

(** X2.  Tree sort: the values of a new tree after inserting [vs] are a
    permutation of [vs] with non-decreasing keys, and values of equal key
    come out in the order they were inserted. *)
Theorem values_of_inserts key_fn vs :
  exists self up,
    [/\ insert_all vs (__init__ key_fn) = (Ok tt, self),
        values false self = (Ok up, self),
        perm_eq up vs,
        sorted <=%O [seq key_of key_fn v | v <- up] &
        forall k,
          [seq v <- up | key_of key_fn v == k] =
          [seq v <- vs | key_of key_fn v == k]].
Proof.
have [self [E Hw Ek Hp Hf]] :=
  insert_all_values vs (well_formed_init key_fn).
rewrite /= in Ek Hp Hf.
exists self, (tree_values (_root self)); rewrite values_forward.
split=> //; case: Hw => St Hk _.
by rewrite -Ek keyed_keys //; apply: search_tree_sorted.
Qed.

(** X3.  [find] returns the first value of that key in ascending order, and
    raises [KeyError] exactly when no value has that key. *)
Theorem find_first k self :
  well_formed self ->
  exists up,
    values false self = (Ok up, self) /\
    find k self =
    (if [seq v <- up | key_of (_sort_key self) v == k] is v :: _
     then Ok v else Raise KeyError, self).
Proof.
case=> St Hk _; exists (tree_values (_root self)).
rewrite values_forward findE (@keyed_filter _ _ (fun x => x == k)) //.
split=> //; have := find_walk_first k St.
case: (find_walk k _) => [p|]; last by move=> ->.
by move=> [l [r [v [ko [-> [s ->]]]]]].
Qed.

(** X4.  After inserts only, [find] returns the earliest inserted value of
    that key. *)
Theorem find_earliest key_fn vs k :
  exists self,
    insert_all vs (__init__ key_fn) = (Ok tt, self) /\
    find k self =
    (if [seq v <- vs | key_of key_fn v == k] is v :: _
     then Ok v else Raise KeyError, self).
Proof.
have [self [E Hw Ek _ Hf]] :=
  insert_all_values vs (well_formed_init key_fn).
rewrite /= in Ek Hf; exists self; split=> //.
have [up []] := find_first k Hw; rewrite values_forward => -[<-] ->.
by rewrite Ek Hf.
Qed.

(** X5.  [insert] does not change what [find] returns for a key that is
    already there. *)
Theorem insert_keeps_find k value x self :
  well_formed self ->
  find k self = (Ok x, self) ->
  find k (insert value self).2 = (Ok x, (insert value self).2).
Proof.
move=> Hw; have [up []] := find_first k Hw.
rewrite values_forward => -[<-] -> [Ex].
have Hw1 := well_formed_insert same_object value Hw.
have [up1 []] := find_first k Hw1; rewrite values_forward => -[<-] ->.
congr (_, _); case: Hw Hw1 Ex => St Hk _ [_ Hk1 _].
rewrite insert_sort_key in Hk1 *.
rewrite !(@keyed_filter _ _ (fun y => y == k)) //.
rewrite insert_root_stable // map_cat.
by case: [seq it <- tree_items (_root self) | it.2 == k].
Qed.

(** X6.  [minimum] returns a value of least key and [maximum] one of greatest
    key among the values of a non-empty tree. *)
Theorem extremes_bound self :
  well_formed self -> truthy (_root self) ->
  exists lo hi up,
    [/\ minimum self = (Ok lo, self),
        maximum self = (Ok hi, self),
        values false self = (Ok up, self) &
        forall x, x \in up ->
          key_of (_sort_key self) lo <= key_of (_sort_key self) x <=
          key_of (_sort_key self) hi].
Proof.
case=> St Hk _ T; rewrite minimumE maximumE values_forward.
have := search_tree_sorted St; rewrite -(keyed_keys Hk).
case E: (tree_values _) => [|lo up] /=.
  move: E; rewrite /tree_values; case: (_root self) T => //= l r v ko _.
  by case: (tree_items l).
move=> Hp; exists lo, (last lo up), (lo :: up); split=> // x Hx.
have Hin := map_f (key_of (_sort_key self)) Hx.
have /allP Hhi := path_le_last Hp.
have /allP Hlo : all (fun y => key_of (_sort_key self) lo <= y)
                     [seq key_of (_sort_key self) v | v <- lo :: up].
  by move: Hp; rewrite /= lexx (path_sortedE le_trans) => /andP[].
by rewrite (Hlo _ Hin) -last_map (Hhi _ Hin).
Qed.

(** X8.  With a right count, the truth value of a tree tells whether
    [values] generates anything. *)
Theorem nonzero_has_values self :
  count_ok self ->
  exists up,
    values false self = (Ok up, self) /\
    __nonzero__ self = (Ok (up != [::]), self).
Proof.
move=> Hc; exists (tree_values (_root self)); rewrite values_forward.
split=> //; rewrite /__nonzero__ /bind /= /ret Hc; congr (Ok _, _).
rewrite /tree_values; case: (_root self) => //= l r v ko.
by case: (tree_items l).
Qed.

(** X7.  After inserts only, [minimum] returns the earliest inserted of the
    values of least key and [maximum] the latest inserted of the values
    of greatest key. *)
Theorem extremes_of_inserts key_fn v vs :
  exists self lo hi,
    [/\ insert_all (v :: vs) (__init__ key_fn) = (Ok tt, self),
        minimum self = (Ok lo, self) /\ maximum self = (Ok hi, self),
        forall x, x \in v :: vs ->
          key_of key_fn lo <= key_of key_fn x <= key_of key_fn hi,
        head lo [seq x <- v :: vs | key_of key_fn x == key_of key_fn lo] =
        lo &
        last hi [seq x <- v :: vs | key_of key_fn x == key_of key_fn hi] =
        hi].
Proof.
have [self [E Hw Ek Hp Hf]] :=
  insert_all_values (v :: vs) (well_formed_init key_fn).
have {Hf} Hf k :
    [seq x <- tree_values (_root self) | key_of key_fn x == k] =
    [seq x <- v :: vs | key_of key_fn x == k] := Hf k.
have {Hp} Hp : perm_eq (tree_values (_root self)) (v :: vs) := Hp.
have {Ek} Ek : _sort_key self = key_fn := Ek.
have T : truthy (_root self).
  move: (perm_size Hp); rewrite /tree_values size_map size_tree_items.
  by case: (_root self).
have [lo [hi [up [Emin Emax Eup Hb]]]] := extremes_bound Hw T.
have Eup' : tree_values (_root self) = up.
  by move: Eup; rewrite values_forward => -[].
have [s1 Hlo] : exists s, up = lo :: s.
  move: Emin; rewrite minimumE Eup'; case: (up) => [|a s] // [->].
  by exists s.
have [s2 Hhi] : exists s, up = rcons s hi.
  move: Emax; rewrite maximumE Eup'; case: (up) => [|a s] // [<-].
  by exists (belast a s); rewrite -lastI.
exists self, lo, hi; split=> //.
- by move=> x Hx; rewrite -Ek; apply: Hb; rewrite -Eup' (perm_mem Hp).
- by rewrite -Hf Eup' Hlo /= eqxx.
- by rewrite -Hf Eup' Hhi filter_rcons eqxx last_rcons.
Qed.

(** [__repr__] shows the [repr] of the values in the order [values]
    generates them, separated by commas, and leaves the tree as it was. *)
Lemma repr_of_values self :
  exists up,
    values false self = (Ok up, self) /\
    __repr__ repr self =
    (Ok ("<BST: (" +++ join ", " [seq repr v | v <- up] +++ ")>"), self).
Proof.
exists (tree_values (_root self)).
by rewrite /__repr__ /bind values_forward.
Qed.

End MoreMethods.

(** ** The rendering *)

Section Rendering.
Variables (d : Order.disp_t) (V : orderType d).
Variable repr : V -> string.
Implicit Types (n l r : node V) (self : BinarySearchTree V).

Local Notation pprint := (pprint repr).
Local Notation _pprint := (_pprint repr).
Local Notation node_texts := (node_texts repr).

Lemma append_assoc (a b c : string) : (a +++ b) +++ c = a +++ (b +++ c).
Proof. by elim: a => //= x a ->. Qed.

Lemma ends_with_refl (text : string) : ends_with text text.
Proof. by exists EmptyString. Qed.

Lemma ends_with_append (a text line : string) :
  ends_with text line -> ends_with text (a +++ line).
Proof. by case=> p ->; exists (a +++ p); rewrite append_assoc. Qed.

Lemma ends_with_cons (c : ascii) (text line : string) :
  ends_with text line -> ends_with text (String c line).
Proof. exact: (@ends_with_append (String c EmptyString)). Qed.

(** Lines that each got something put in front keep their endings. *)
Lemma ends_with_map (f : string -> string) (lines texts : seq string) :
  (forall line text, ends_with text line -> ends_with text (f line)) ->
  List.Forall2 (fun line text => ends_with text line) lines texts ->
  List.Forall2 (fun line text => ends_with text line)
    [seq f line | line <- lines] texts.
Proof.
move=> Hf; elim=> [|line text ls ts He _ IH] /=; first by constructor.
by constructor=> //; apply: Hf.
Qed.

Lemma ends_with_enumerate (f : Z -> string -> string)
    (lines texts : seq string) :
  (forall i line text, ends_with text line -> ends_with text (f i line)) ->
  List.Forall2 (fun line text => ends_with text line) lines texts ->
  List.Forall2 (fun line text => ends_with text line)
    [seq f il.1 il.2 | il <- enumerate lines] texts.
Proof.
rewrite /enumerate; move: 0 => i Hf H.
elim: H i => [|line text ls ts He _ IH] i /=; first by constructor.
by constructor; [apply: Hf | apply: IH].
Qed.

(** The rendering does not look at [show_key]. *)
Lemma _pprint_show_key n max_depth show_key show_key' spacer :
  _pprint n max_depth show_key spacer =
  _pprint n max_depth show_key' spacer.
Proof.
elim: n max_depth => [|l IHl r IHr v ko] max_depth //=.
by rewrite (IHl (max_depth - 1)%Z) (IHr (max_depth - 1)%Z).
Qed.

(** X9.  [pprint] returns the same text whether [show_key] is set or not. *)
Theorem pprint_ignores_show_key max_depth frame show_key show_key' self :
  pprint max_depth frame show_key self =
  pprint max_depth frame show_key' self.
Proof.
by rewrite /pprint /bind /= (_pprint_show_key _ _ show_key show_key').
Qed.

(** When the depth limit is not met, [_pprint] gives one line per node,
    in left-to-right order of the nodes, each line ending with the text of
    its node. *)
Lemma _pprint_lines n max_depth show_key spacer :
  truthy n ->
  (Z.of_nat (height n) <= max_depth \/ max_depth < 0)%Z ->
  let: (t, m, b) := _pprint n max_depth show_key spacer in
  List.Forall2 (fun line text => ends_with text line)
    (t ++ m :: b) (node_texts n).
Proof.
elim: n max_depth => [|l IHl r IHr v ko] max_depth //= _ Hd.
have -> : (max_depth =? 0)%Z = false.
  by apply/Z.eqb_neq; move: Hd; rewrite Zpos_P_of_succ_nat; lia.
have Hl : (Z.of_nat (height l) <= max_depth - 1 \/ max_depth - 1 < 0)%Z.
  case: Hd => Hd; [left|right; lia].
  move: Hd; rewrite Zpos_P_of_succ_nat.
  have /ssrnat.leP := leq_maxl (height l) (height r); lia.
have Hr : (Z.of_nat (height r) <= max_depth - 1 \/ max_depth - 1 < 0)%Z.
  case: Hd => Hd; [left|right; lia].
  move: Hd; rewrite Zpos_P_of_succ_nat.
  have /ssrnat.leP := leq_maxr (height l) (height r); lia.
apply: List.Forall2_app; last constructor.
- case Tl: (truthy l); last by case: (l) Tl => //; constructor.
  move: (IHl _ Tl Hl); case: (_pprint l _ _ _) => [[t m] b] H.
  have [ts [ms [H1 [H2 ->]]]] := List.Forall2_app_inv_l _ _ H.
  apply: List.Forall2_app.
    apply: ends_with_map H1 => line text Hlt.
    by apply: ends_with_append; apply: ends_with_cons.
  inversion H2 as [|m' text b' ts' Hm Hb]; subst.
  constructor.
    by apply: ends_with_append; apply: ends_with_cons.
  apply: (@ends_with_enumerate
            (fun i line =>
               str_mul " " (len_seq b - i + spacer - 1) +++ "/" +++
               str_mul " " (i + 1) +++ line)%Z) Hb => i line text' Hlt.
  by apply: ends_with_append; apply: ends_with_cons; apply: ends_with_append.
- by case: (ko) => [k|]; apply: ends_with_refl.
- case Tr: (truthy r); last by case: (r) Tr => //; constructor.
  move: (IHr _ Tr Hr); case: (_pprint r _ _ _) => [[t m] b] H.
  have [ts [ms [H1 [H2 ->]]]] := List.Forall2_app_inv_l _ _ H.
  apply: List.Forall2_app.
    apply: (@ends_with_enumerate
              (fun i line =>
                 str_mul " " (i + spacer) +++ "\" +++
                 str_mul " " (len_seq t - i) +++ line)%Z) H1
      => i line text' Hlt.
    by apply: ends_with_append; apply: ends_with_cons; apply: ends_with_append.
  inversion H2 as [|m' text b' ts' Hm Hb]; subst.
  constructor.
    by apply: ends_with_append; apply: ends_with_cons.
  apply: ends_with_map Hb => line text' Hlt.
  by apply: ends_with_append; apply: ends_with_cons.
Qed.


Lemma join_empty_cons (x : string) (s : seq string) :
  join EmptyString (x :: s) = x +++ join EmptyString s.
Proof. by case: s => //=; elim: x => //= c x <-. Qed.

Lemma join_empty_cat (s1 s2 : seq string) :
  join EmptyString (s1 ++ s2) =
  join EmptyString s1 +++ join EmptyString s2.
Proof.
elim: s1 => [|x s1 IH] //; rewrite cat_cons !join_empty_cons IH.
by rewrite append_assoc.
Qed.

Lemma len_str_append (a b : string) :
  len_str (a +++ b) = (len_str a + len_str b)%Z.
Proof.
rewrite /len_str -Nat2Z.inj_add; congr Z.of_nat.
by elim: a => //= c a ->.
Qed.

Lemma len_str_mul (c : ascii) (z : Z) :
  len_str (str_mul c z) = Z.max 0 z.
Proof.
have -> : len_str (str_mul c z) = Z.of_nat (Z.to_nat z).
  rewrite /len_str /str_mul; congr Z.of_nat.
  by elim: (Z.to_nat z) => //= n ->.
lia.
Qed.

Lemma foldl_max_ge (a : Z) (zs : seq Z) :
  (a <= foldl Z.max a zs)%Z /\
  List.Forall (fun z => z <= foldl Z.max a zs)%Z zs.
Proof.
elim: zs a => [|z zs IH] a /=; first by split; [lia | constructor].
have [H1 H2] := IH (Z.max a z); split; first lia.
by constructor=> //; lia.
Qed.

Lemma max_of_ge (zs : seq Z) : List.Forall (fun z => z <= max_of zs)%Z zs.
Proof.
case: zs => [|a zs] /=; first by constructor.
by have [H1 H2] := foldl_max_ge a zs; constructor.
Qed.


End Rendering.

(** ** Insertion in key order: the tree is not rebalanced *)

Section Chains.
Variables (d : Order.disp_t) (V : orderType d).
Variable same_object : V -> V -> bool.
Implicit Types (n l r : node V) (k value : V).
Implicit Types (self : BinarySearchTree V) (key_fn : option (V -> V)).

Local Notation insert := (insert same_object).
Local Notation insert_all := (insert_all same_object).

Lemma right_spine_height n : right_spine n -> height n = size_tree n.
Proof.
elim: n => //= l _ r IHr v ko /andP[Hl /IHr ->].
by case: l Hl => //= _; rewrite max0n.
Qed.

(** A key that is not below any key of a rightward chain goes to its
    far end. *)
Lemma right_spine_insert k n v ko :
  right_spine n -> all (fun x => x <= k) (tree_keys n) ->
  right_spine (assign (fun _ => Node Empty Empty v ko) n (insert_walk k n)).
Proof.
elim: n => //= l _ r IHr w kw /andP[Hl Hr].
rewrite /tree_keys map_cat all_cat /= => /and3P[_ Hle Ha].
by rewrite ltNge Hle /= Hl IHr.
Qed.

(** [insert] writes a node without children. *)
Lemma insert_leaf value self :
  exists2 ko,
    last_item value ko = key_of (_sort_key self) value &
    insert value self =
    (Ok tt, mkBST (assign (fun _ => Node Empty Empty value ko) (_root self)
                     (insert_walk (key_of (_sort_key self) value)
                                  (_root self)))
                  (_sort_key self) (_len self + 1)%Z).
Proof.
rewrite /insert /bind /=; case: (_sort_key self) => [f|] /=.
  case E: (is_ _ _ _); last by exists (Some (f value)).
  by exists None => //=; case/andP: E => /eqP.
by exists None.
Qed.

Lemma insert_all_chain vs self :
  right_spine (_root self) ->
  sorted <=%O [seq key_of (_sort_key self) v | v <- vs] ->
  all (fun x => all (fun y => x <= y)
                    [seq key_of (_sort_key self) v | v <- vs])
      (tree_keys (_root self)) ->
  exists self',
    [/\ insert_all vs self = (Ok tt, self'),
        right_spine (_root self') &
        size_tree (_root self') = size_tree (_root self) + size vs].
Proof.
elim: vs self => [|v vs IH] self Hs Hp Ha.
  by exists self; rewrite addn0.
have [ko Ek Ei] := insert_leaf v self.
set self1 := mkBST _ _ _ in Ei.
have Hi : perm_eq (tree_items (_root self1))
                  ((v, key_of (_sort_key self) v) :: tree_items (_root self)).
  by apply: insert_items; rewrite /= Ek.
have Hs1 : right_spine (_root self1).
  apply: right_spine_insert => //.
  by apply: sub_all Ha => x /= /andP[].
have Hp1 : sorted <=%O [seq key_of (_sort_key self1) x | x <- vs].
  exact: path_sorted Hp.
have Ha1 : all (fun x => all (fun y => x <= y)
                             [seq key_of (_sort_key self1) y | y <- vs])
               (tree_keys (_root self1)).
  rewrite /tree_keys (perm_all _ (perm_map _ Hi)) /=.
  move: Hp; rewrite /= (path_sortedE le_trans) => /andP[-> _] /=.
  by apply: sub_all Ha => x /= /andP[].
have [self' [E' Hs' Hz]] := IH self1 Hs1 Hp1 Ha1.
exists self'; rewrite /= /bind Ei E'; split=> //.
by rewrite Hz -!size_tree_items (perm_size Hi) /= addSnnS.
Qed.

(** X12.  Inserting values in non-decreasing key order into a new tree builds
    a chain: no node has a left child, and the height of the tree is the
    number of values. *)
Theorem sorted_inserts_chain key_fn vs :
  sorted <=%O [seq key_of key_fn v | v <- vs] ->
  exists self,
    [/\ insert_all vs (__init__ key_fn) = (Ok tt, self),
        right_spine (_root self) &
        height (_root self) = size vs].
Proof.
move=> Hp.
have [self [E Hs Hz]] :=
  @insert_all_chain vs (__init__ key_fn) isT Hp isT.
by exists self; split=> //; rewrite right_spine_height.
Qed.

End Chains.

(** ** [partition] of physics.py *)

Section PartitionFacts.
Variables (d : Order.disp_t) (V : orderType d).
Implicit Types (lst : seq V) (i bottom top : Z).

Lemma size_replace (j : nat) (x : V) lst : size (replace j x lst) = size lst.
Proof. by elim: lst j => [|a s IH] [|j] //=; rewrite IH. Qed.

Lemma position_size lst i j : position lst i = Some j -> j < size lst.
Proof.
rewrite /position; case: ifP => [/andP[/Z.leb_le H1 /Z.ltb_lt H2]|_].
  by case=> <-; apply/ssrnat.ltP; lia.
case: ifP => [/andP[/Z.leb_le H1 /Z.ltb_lt H2]|//].
by case=> <-; apply/ssrnat.ltP; lia.
Qed.

Lemma position_replace (j : nat) (x : V) lst i :
  position (replace j x lst) i = position lst i.
Proof. by rewrite /position size_replace. Qed.

Lemma drop_replace (j : nat) (x : V) lst :
  j < size lst -> drop j (replace j x lst) = x :: drop j.+1 lst.
Proof.
elim: lst j => [|a s IH] [|j] //=; first by rewrite drop0.
by move=> /IH.
Qed.

(** An item that was assigned is the item read back. *)
Lemma getitem_setitem lst lst' i (x : V) :
  setitem lst i x = Ok lst' -> getitem lst' i = Ok x /\ size lst' = size lst.
Proof.
rewrite /setitem /getitem; case E: (position lst i) => [j|] // [<-].
rewrite position_replace E drop_replace ?size_replace //.
exact: position_size E.
Qed.

Lemma partition_finish_result (pivot : V) lst top lst' t :
  partition_finish pivot lst top = Ok (lst', t) ->
  [/\ t = top, size lst' = size lst & getitem lst' t = Ok pivot].
Proof.
rewrite /partition_finish; case E: (setitem _ _ _) => [s|] // [<- <-].
by have [H1 H2] := getitem_setitem E.
Qed.

Lemma setitem_size lst lst' i (x : V) :
  setitem lst i x = Ok lst' -> size lst' = size lst.
Proof. by case/getitem_setitem. Qed.

(** What the loops return, from either inner loop: an index that
    [bottom] has reached or passed. *)
Lemma partition_loop_result (pivot : V) ph lst bottom top :
  (if ph is ScanBottom then bottom <= top else bottom < top)%Z ->
  forall lst1 t,
  partition_loop pivot ph lst bottom top = Ok (lst1, t) ->
  [/\ (if ph is ScanBottom then t <= bottom - 1 else t <= bottom)%Z,
      size lst1 = size lst & getitem lst1 t = Ok pivot].
Proof.
funelim (partition_loop pivot ph lst bottom top) => Hinv lst1 t // E.
- by move: (e) => /Z.eqb_eq He; exfalso; lia.
- have Hi : (bottom - 1 <= top)%Z by lia.
  by have [Ht Hz Hg] := H Hi _ _ E; split=> //; lia.
- have Hi : (bottom - 1 < top)%Z by move: (e) => /Z.eqb_neq He; lia.
  have [Ht Hz Hg] := H Hi _ _ E; split=> //.
  by rewrite Hz (setitem_size Hs).
- have [-> Hz Hg] := partition_finish_result E; split=> //.
  by move: (e) => /Z.eqb_eq He; lia.
- have Hi : (bottom < top - 1)%Z by move: (e) => /Z.eqb_neq He; lia.
  by have [Ht Hz Hg] := H Hi _ _ E.
- have Hi : (bottom <= top - 1)%Z by lia.
  have [Ht Hz Hg] := H Hi _ _ E; split=> //; first lia.
  by rewrite Hz (setitem_size Hs).
Qed.

(** X13.  Called with [start <= end + 1], [partition] does not return an index
    of the range it was given: when it returns, the index is at most
    [start - 2]; the list has kept its length and holds the pivot, the
    item that was at [end], at the index returned. *)
Theorem partition_below_start lst (start end_ : Z) lst' t :
  (start <= end_ + 1)%Z ->
  partition lst start end_ = Ok (lst', t) ->
  [/\ (t <= start - 2)%Z, size lst' = size lst &
      exists2 pivot, getitem lst end_ = Ok pivot &
                     getitem lst' t = Ok pivot].
Proof.
move=> Hse; rewrite /partition; case E: (getitem lst end_) => [pivot|] //.
move=> /partition_loop_result[|Ht Hz Hg]; first lia.
by split=> //; [lia | exists pivot].
Qed.

(** X14.  [partition] raises [IndexError] whenever [end] is not an index of
    the list, in particular on every call with the empty list. *)
Theorem partition_bad_end lst (start end_ : Z) :
  (end_ < - Z.of_nat (size lst) \/ Z.of_nat (size lst) <= end_)%Z ->
  partition lst start end_ = Raise IndexError.
Proof.
move=> H; rewrite /partition /getitem /position.
case: ifP => [/andP[/Z.leb_le H1 /Z.ltb_lt H2]|_]; first lia.
by case: ifP => [/andP[/Z.leb_le H1 /Z.ltb_lt H2]|//]; lia.
Qed.

End PartitionFacts.

(** ** The further properties at concrete inputs *)

Lemma insert_after_not_greater_witness :
  well_formed tree_53814 /\
  exists up,
    values false tree_53814 = (Ok up, tree_53814) /\
    values false (insert shared 4 tree_53814).2 =
    (Ok ([seq v <- up
         | key_of (_sort_key tree_53814) v <=
           key_of (_sort_key tree_53814) 4] ++
         4 ::
         [seq v <- up
         | key_of (_sort_key tree_53814) 4 <
           key_of (_sort_key tree_53814) v]),
     (insert shared 4 tree_53814).2).
Proof.
have Hw : well_formed tree_53814 by split; vm_compute.
split; first exact: Hw.
exact: (insert_after_not_greater shared 4 Hw).
Defined.

Lemma find_first_witness :
  well_formed tree_53814 /\
  exists up,
    values false tree_53814 = (Ok up, tree_53814) /\
    find 4 tree_53814 =
    (if [seq v <- up | key_of (_sort_key tree_53814) v == 4] is v :: _
     then Ok v else Raise KeyError, tree_53814).
Proof.
have Hw : well_formed tree_53814 by split; vm_compute.
split; first exact: Hw.
exact: (find_first 4 Hw).
Defined.

Lemma insert_keeps_find_witness :
  well_formed tree_53814 /\
  find 8 tree_53814 = (Ok 8, tree_53814) /\
  find 8 (insert shared 8 tree_53814).2 =
  (Ok 8, (insert shared 8 tree_53814).2).
Proof.
have Hw : well_formed tree_53814 by split; vm_compute.
have Hf : find 8 tree_53814 = (Ok 8, tree_53814) by vm_compute.
split; first exact: Hw.
split; first exact: Hf.
exact: (insert_keeps_find shared 8 Hw Hf).
Defined.

Lemma extremes_bound_witness :
  well_formed tree_53814 /\ truthy (_root tree_53814) /\
  exists lo hi up,
    [/\ minimum tree_53814 = (Ok lo, tree_53814),
        maximum tree_53814 = (Ok hi, tree_53814),
        values false tree_53814 = (Ok up, tree_53814) &
        forall x, x \in up ->
          key_of (_sort_key tree_53814) lo <=
          key_of (_sort_key tree_53814) x <=
          key_of (_sort_key tree_53814) hi].
Proof.
have Hw : well_formed tree_53814 by split; vm_compute.
have T : truthy (_root tree_53814) by vm_compute.
split; first exact: Hw.
split; first exact: T.
exact: (extremes_bound Hw T).
Defined.

Lemma nonzero_has_values_witness :
  count_ok tree_53814 /\
  exists up,
    values false tree_53814 = (Ok up, tree_53814) /\
    __nonzero__ tree_53814 = (Ok (up != [::]), tree_53814).
Proof.
have Hc : count_ok tree_53814 by vm_compute.
split; first exact: Hc.
exact: (nonzero_has_values Hc).
Defined.


Lemma sorted_inserts_chain_witness :
  sorted <=%O [seq key_of None v | v <- [:: 1; 2; 2; 3]] /\
  exists self,
    [/\ insert_all shared [:: 1; 2; 2; 3] (__init__ None) = (Ok tt, self),
        right_spine (_root self) &
        height (_root self) = size [:: 1; 2; 2; 3]].
Proof.
have Hs : sorted <=%O [seq key_of None v | v <- [:: 1; 2; 2; 3]].
  by vm_compute.
split; first exact: Hs.
exact: (sorted_inserts_chain shared Hs).
Defined.

Lemma partition_below_start_witness :
  (0 <= 2 + 1)%Z /\
  partition [:: 7; 9; 3] 0 2 = Ok ([:: 7; 3; 9], (-2)%Z) /\
  [/\ (-2 <= 0 - 2)%Z, size [:: 7; 3; 9] = size [:: 7; 9; 3] &
      exists2 pivot, getitem [:: 7; 9; 3] 2 = Ok pivot &
                     getitem [:: 7; 3; 9] (-2) = Ok pivot].
Proof.
have Hse : (0 <= 2 + 1)%Z by [].
have Hp : partition [:: 7; 9; 3] 0 2 = Ok ([:: 7; 3; 9], (-2)%Z).
  by vm_compute.
split; first exact: Hse.
split; first exact: Hp.
exact: (partition_below_start Hse Hp).
Defined.

Lemma partition_bad_end_witness :
  (0 < - Z.of_nat (size (@nil nat)) \/ Z.of_nat (size (@nil nat)) <= 0)%Z /\
  partition (@nil nat) 0 0 = Raise IndexError.
Proof.
have H : (0 < - Z.of_nat (size (@nil nat)) \/
          Z.of_nat (size (@nil nat)) <= 0)%Z by right.
split; first exact: H.
exact: (partition_bad_end 0 H).
Defined.
